(** * fractionalindex: key generation, accessors and the Indexer

    A shallow embedding of [fractionalindex/fractionalindex.py].

    Python strings are [string]; [None] is the [None] of [option]; a call that
    may raise returns a [res].  Comparison of strings is Python's: lexicographic
    on code points, a proper prefix being smaller, which is [String.compare]. *)

From Stdlib Require Import String Ascii List Arith Bool Lia NArith.
From Stdlib Require Import Sorted Permutation ZArith.
Import ListNotations.

Open Scope string_scope.

(** ** Exceptions *)

Inductive exn : Type :=
| InvalidOrder      (* lower bound not strictly below the upper bound *)
| InvalidKey        (* a bound that is not a well-formed key *)
| KeySpaceExhausted (* no integer part above the largest / below the smallest *)
| TypeError         (* Python: [<] between [None] and a [str] *)
| KeyError          (* Python: [d[k]] for a key that is not in the dict *)
| IndexError        (* Python: [l[i]] for an index out of range *)
| OtherError.       (* anything else a caller-supplied function may raise *)

Inductive res (A : Type) : Type :=
| Ok (a : A)
| Raise (e : exn).

Arguments Ok {A} a.
Arguments Raise {A} e.

Definition bind {A B : Type} (m : res A) (k : A -> res B) : res B :=
  match m with
  | Ok a => k a
  | Raise e => Raise e
  end.

Notation "x <- m ;; k" := (bind m (fun x => k))
  (at level 61, m at next level, right associativity).
Notation "' pat <- m ;; k" := (bind m (fun x => match x with pat => k end))
  (at level 61, pat pattern, m at next level, right associativity).

(** ** Order on characters and strings *)

Definition chr_lt (c d : ascii) : Prop := nat_of_ascii c < nat_of_ascii d.
Definition str_lt (s t : string) : Prop := (s ?= t) = Lt.

Infix "<c" := chr_lt (at level 70).
Infix "<s" := str_lt (at level 70).

(** A string is smaller than another "at a position" when both share a prefix
    and then differ, the first having the smaller character there.  Whatever
    follows such strings does not change their order. *)
Definition str_below (s t : string) : Prop :=
  exists p c d s' t', s = p ++ String c s' /\ t = p ++ String d t' /\ c <c d.

(** ** The key codec

    [generate_key_between] is imported from the package [fractional_indexing];
    the repository holds no code for it.  The codec below follows the
    specification (sections 3, 4.1 and 4.2): keys over the 62-symbol
    alphabet in code-point order, an integer part whose head character gives
    its length, a fractional part without trailing zero digit, increment and
    decrement of the integer part, and the midpoint of two fractional parts. *)

Module KeyGen.

(** Modelled from the spec: the alphabet of [fractional_indexing], which is
    not under src/ ("a fixed ordered alphabet ... 62 symbols").  Section 3
    lists it as digits, lowercase, uppercase, and asks in the same sentence
    that keys "compare by ordinary lexicographic (codepoint) order"; the two
    agree only when the symbols are in the order of their code points, which
    is digits, uppercase, lowercase, the order taken here. *)
Definition BASE_62_DIGITS : string :=
  "0123456789ABCDEFGHIJKLMNOPQRSTUVWXYZabcdefghijklmnopqrstuvwxyz".

(** Modelled from the spec: the number of symbols, [len(digits)]. *)
Definition base : nat := String.length BASE_62_DIGITS.

(** Modelled from the spec: the position of a symbol in the alphabet,
    [digits.index(c)]. *)
Fixpoint index_of (c : ascii) (s : string) : option nat :=
  match s with
  | "" => None
  | String d s' =>
      if Ascii.eqb d c then Some 0
      else match index_of c s' with
           | Some i => Some (S i)
           | None => None
           end
  end.

Definition digit_index (c : ascii) : option nat := index_of c BASE_62_DIGITS.

(** Modelled from the spec: the smallest digit, [digits[0]]. *)
Definition zero : ascii := "0"%char.

(** Modelled from the spec: the symbol at a position, [digits[n]]; every
    position the codec computes is below [base]. *)
Definition digit_at (n : nat) : ascii :=
  match String.get n BASE_62_DIGITS with
  | Some c => c
  | None => zero
  end.

(** Modelled from the spec: membership in the alphabet. *)
Definition is_digit (c : ascii) : bool :=
  match digit_index c with Some _ => true | None => false end.

Fixpoint all_digits (s : string) : bool :=
  match s with
  | "" => true
  | String c s' => is_digit c && all_digits s'
  end.

(** The last character of a string is the zero digit. *)
Fixpoint ends_with_zero (s : string) : bool :=
  match s with
  | "" => false
  | String c "" => Ascii.eqb c zero
  | String _ s' => ends_with_zero s'
  end.

(** Modelled from the spec: "the midpoint digit", half way between two
    positions, halves rounded up. *)
Definition half_up (da db : nat) : nat := (da + db + 1) / 2.

(** Modelled from the spec: [midpoint(a, None)] of [fractional_indexing], not
    under src/ ("midpoint(a, None) must produce a key greater than a"), on
    fractional parts: the digit half way between the first digit of [a] and
    the end of the alphabet, or, when [a] starts with the last digit, that
    digit followed by the midpoint of the rest. *)
Fixpoint midpoint_open (a : string) : res string :=
  match a with
  | "" => Ok (String (digit_at (half_up 0 base)) "")
  | String x a' =>
      match digit_index x with
      | None => Raise InvalidKey
      | Some da =>
          if (1 <? base - da)%nat then Ok (String (digit_at (half_up da base)) "")
          else s <- midpoint_open a' ;; Ok (String (digit_at da) s)
      end
  end.

(** Modelled from the spec: [midpoint(a, b)] of [fractional_indexing], not
    under src/ ("a key strictly between a and b"), on fractional parts with
    [a < b]: the common prefix of [b] and of [a] padded with zero digits is
    kept; at the first difference the digit half way between is taken when
    there is one, else the first digit of [b] when [b] goes on, else the
    digit of [a] followed by the open midpoint of the rest of [a]. *)
Fixpoint midpoint (a b : string) : res string :=
  match b with
  | "" => Raise InvalidOrder
  | String y b' =>
      let x := match a with "" => zero | String x _ => x end in
      let a' := match a with "" => "" | String _ a' => a' end in
      if Ascii.eqb x y then s <- midpoint a' b' ;; Ok (String y s)
      else
        match digit_index x, digit_index y with
        | Some da, Some db =>
            if (1 <? db - da)%nat then Ok (String (digit_at (half_up da db)) "")
            else match b' with
                 | "" => s <- midpoint_open a' ;; Ok (String (digit_at da) s)
                 | _ => Ok (String y "")
                 end
        | _, _ => Raise InvalidKey
        end
  end.

(** Python slices [s[:n]] and [s[n:]]. *)
Fixpoint take (n : nat) (s : string) : string :=
  match n, s with
  | S n', String c s' => String c (take n' s')
  | _, _ => ""
  end.

Fixpoint drop (n : nat) (s : string) : string :=
  match n, s with
  | S n', String _ s' => drop n' s'
  | _, _ => s
  end.

(** [c * n] *)
Fixpoint str_repeat (c : ascii) (n : nat) : string :=
  match n with
  | 0 => ""
  | S n' => String c (str_repeat c n')
  end.

(** [digs.pop()]: the string without its last character. *)
Fixpoint pop (s : string) : string :=
  match s with
  | "" => ""
  | String _ "" => ""
  | String c s' => String c (pop s')
  end.

(** Python's [ord] and [chr] on characters. *)
Definition ord (c : ascii) : nat := nat_of_ascii c.
Definition chr (n : nat) : ascii := ascii_of_nat n.

(** Modelled from the spec: [get_integer_length] of [fractional_indexing], not
    under src/ ("one or more leading index characters encoding its magnitude
    class"): heads [a]..[z] announce 2..27 characters, heads [Z]..[A] announce
    2..27 characters below them. *)
Definition get_integer_length (head : ascii) : res nat :=
  if (ord "a" <=? ord head)%nat && (ord head <=? ord "z")%nat
  then Ok (ord head - ord "a" + 2)
  else if (ord "A" <=? ord head)%nat && (ord head <=? ord "Z")%nat
  then Ok (ord "Z" - ord head + 2)
  else Raise InvalidKey.

(** Modelled from the spec: [get_integer_part] of [fractional_indexing], not
    under src/: the leading characters announced by the head. *)
Definition get_integer_part (key : string) : res string :=
  match key with
  | "" => Raise InvalidKey
  | String head _ =>
      n <- get_integer_length head ;;
      if (String.length key <? n)%nat then Raise InvalidKey else Ok (take n key)
  end.

(** Modelled from the spec: the smallest integer part, head [A] and 26 zero
    digits; nothing lies below it, so alone it is not a key. *)
Definition smallest_integer : string := String "A" (str_repeat zero 26).

(** Modelled from the spec: [validate_order_key] of [fractional_indexing], not
    under src/: a key is a string over the alphabet ("an immutable string over
    a fixed ordered alphabet") with a complete integer part and a fractional
    part that does not end with the zero digit; the smallest integer alone is
    not a key. *)
Definition validate_order_key (key : string) : res unit :=
  if key =? smallest_integer then Raise InvalidKey
  else
    i <- get_integer_part key ;;
    let f := drop (String.length i) key in
    if ends_with_zero f then Raise InvalidKey
    else if all_digits (drop 1 key) then Ok tt
    else Raise InvalidKey.

(** Modelled from the spec: the digits of an integer part plus one, from the
    right, and the carry (the loop of [increment_integer]). *)
Fixpoint incr_digits (digs : string) : res (string * bool) :=
  match digs with
  | "" => Ok ("", true)
  | String d digs' =>
      '(r, carry) <- incr_digits digs' ;;
      if carry then
        match digit_index d with
        | None => Raise InvalidKey
        | Some i =>
            if (S i =? base)%nat then Ok (String zero r, true)
            else Ok (String (digit_at (S i)) r, false)
        end
      else Ok (String d r, false)
  end.

(** Modelled from the spec: the digits of an integer part minus one, from
    the right, and the borrow (the loop of [decrement_integer]). *)
Fixpoint decr_digits (digs : string) : res (string * bool) :=
  match digs with
  | "" => Ok ("", true)
  | String d digs' =>
      '(r, borrow) <- decr_digits digs' ;;
      if borrow then
        match digit_index d with
        | None => Raise InvalidKey
        | Some 0 => Ok (String (digit_at (base - 1)) r, true)
        | Some (S i) => Ok (String (digit_at i) r, false)
        end
      else Ok (String d r, false)
  end.

(** Modelled from the spec: [increment_integer] of [fractional_indexing], not
    under src/ ("smallest key strictly greater than key within the same or
    next magnitude class"); [None] above the largest integer part. *)
Definition increment_integer (x : string) : res (option string) :=
  match x with
  | "" => Raise InvalidKey
  | String head digs =>
      '(r, carry) <- incr_digits digs ;;
      if carry then
        if Ascii.eqb head "Z" then Ok (Some (String "a" (String zero "")))
        else if Ascii.eqb head "z" then Ok None
        else
          let h := chr (ord head + 1) in
          if (ord "a" <? ord h)%nat then Ok (Some (String h (r ++ String zero "")))
          else Ok (Some (String h (pop r)))
      else Ok (Some (String head r))
  end.

(** Modelled from the spec: [decrement_integer] of [fractional_indexing], not
    under src/ ("largest key strictly smaller"); [None] below the smallest
    integer part. *)
Definition decrement_integer (x : string) : res (option string) :=
  match x with
  | "" => Raise InvalidKey
  | String head digs =>
      '(r, borrow) <- decr_digits digs ;;
      if borrow then
        if Ascii.eqb head "a" then Ok (Some (String "Z" (String (digit_at (base - 1)) "")))
        else if Ascii.eqb head "A" then Ok None
        else
          let h := chr (ord head - 1) in
          if (ord h <? ord "Z")%nat
          then Ok (Some (String h (r ++ String (digit_at (base - 1)) "")))
          else Ok (Some (String h (pop r)))
      else Ok (Some (String head r))
  end.

(** Modelled from the spec: the precondition of [between], "if both bounds
    present, lowerBound < upperBound (strict)", reported as [InvalidOrder]. *)
Definition check_order (a b : option string) : res unit :=
  match a, b with
  | Some a, Some b => if a <? b then Ok tt else Raise InvalidOrder
  | _, _ => Ok tt
  end.

(** Modelled from the spec: a bound that is present is a key.  The spec
    names no error for a string that is not a key; it is reported apart from
    [InvalidOrder]. *)
Definition check_key (a : option string) : res unit :=
  match a with
  | Some a => validate_order_key a
  | None => Ok tt
  end.

(** Modelled from the spec: [generate_key_between] of [fractional_indexing],
    which is not under src/ (sections 4.1 and 4.2: "between(lowerBound,
    upperBound)", "fails with InvalidOrder if a >= b when both are present",
    "midpoint(None, None) yields a canonical starting key").  The order of
    the bounds is checked first, as the scenario between("b", "a") asks. *)
Definition generate_key_between (a b : option string) : res string :=
  _ <- check_order a b ;;
  _ <- check_key a ;;
  _ <- check_key b ;;
  match a, b with
  | None, None => Ok (String "a" (String zero ""))
  | None, Some b =>
      int_b <- get_integer_part b ;;
      let float_b := drop (String.length int_b) b in
      if int_b =? smallest_integer
      then m <- midpoint "" float_b ;; Ok (int_b ++ m)
      else if int_b <? b then Ok int_b
      else
        r <- decrement_integer int_b ;;
        match r with
        | None => Raise KeySpaceExhausted
        | Some k => Ok k
        end
  | Some a, None =>
      int_a <- get_integer_part a ;;
      let float_a := drop (String.length int_a) a in
      i <- increment_integer int_a ;;
      match i with
      | None => m <- midpoint_open float_a ;; Ok (int_a ++ m)
      | Some i => Ok i
      end
  | Some a, Some b =>
      int_a <- get_integer_part a ;;
      let float_a := drop (String.length int_a) a in
      int_b <- get_integer_part b ;;
      let float_b := drop (String.length int_b) b in
      if int_a =? int_b
      then m <- midpoint float_a float_b ;; Ok (int_a ++ m)
      else
        i <- increment_integer int_a ;;
        match i with
        | None => Raise KeySpaceExhausted
        | Some i =>
            if i <? b then Ok i
            else m <- midpoint_open float_a ;; Ok (int_a ++ m)
        end
  end.

(** A well-formed key: [validate_order_key] accepts it. *)
Definition valid_key (key : string) : Prop := validate_order_key key = Ok tt.

(** Every character of a string satisfies [P]. *)
Fixpoint str_all (P : ascii -> Prop) (s : string) : Prop :=
  match s with
  | "" => True
  | String c s' => P c /\ str_all P s'
  end.

End KeyGen.

(** ** The Indexer

    [class Indexer]: an accessor, which answers [first], [last], [before] and
    [after] with the NAME of an item or [None], and a mapping [name_to_key]
    from NAMEs to KEYs, which [insert] also applies to [None]. *)

Record Accessor (Name : Type) : Type := {
  first : res (option Name);
  last : res (option Name);
  before : Name -> res (option Name);
  after : Name -> res (option Name)
}.

Arguments first {Name} _.
Arguments last {Name} _.
Arguments before {Name} _ _.
Arguments after {Name} _ _.

Module Indexer.

Section Indexer.

Variable Name : Type.
Variable items : Accessor Name.
Variable name_to_key : option Name -> res (option string).

(** The [match (after, before)] statement of [Indexer.insert]: the two names
    after the statement. *)
Definition resolve (after_ before_ : option Name) : res (option Name * option Name) :=
  match after_, before_ with
  | None, None => a <- last items ;; Ok (a, before_)
  | None, Some b => a <- before items b ;; Ok (a, before_)
  | Some a, None => b <- after items a ;; Ok (after_, b)
  | Some _, Some _ => Ok (after_, before_)
  end.

(** The two arguments of [generate_key_between] in [Indexer.insert]. *)
Definition mapped_bounds (after_ before_ : option Name)
  : res (option string * option string) :=
  '(a, b) <- resolve after_ before_ ;;
  lo <- name_to_key a ;;
  hi <- name_to_key b ;;
  Ok (lo, hi).

(** [Indexer.insert] *)
Definition insert (after_ before_ : option Name) : res string :=
  '(a, b) <- resolve after_ before_ ;;
  lo <- name_to_key a ;;
  hi <- name_to_key b ;;
  KeyGen.generate_key_between lo hi.

(** [Indexer.insert_at_start] and [Indexer.insert_at_end] *)
Definition insert_at_start : res string :=
  f <- first items ;; insert None f.

Definition insert_at_end : res string :=
  l <- last items ;; insert l None.

(** How a run of the generator [Indexer.__iter__] stands after some steps. *)
Inductive iter_end : Type :=
| Stop                      (* [current is None]: the generator is exhausted *)
| Fail (e : exn)            (* the accessor raised *)
| More (current : Name).    (* the loop would go on with [current] *)

(** The [while] loop of [Indexer.__iter__], run for at most [fuel] rounds:
    the names yielded so far and how the run stands. *)
Fixpoint iter_loop (fuel : nat) (current : option Name) : list Name * iter_end :=
  match current with
  | None => ([], Stop)
  | Some c =>
      match fuel with
      | 0 => ([], More c)
      | S fuel' =>
          match after items c with
          | Raise e => ([c], Fail e)
          | Ok next =>
              let (ys, e) := iter_loop fuel' next in (c :: ys, e)
          end
      end
  end.

(** [Indexer.__iter__] *)
Definition iter (fuel : nat) : list Name * iter_end :=
  match first items with
  | Raise e => ([], Fail e)
  | Ok current => iter_loop fuel current
  end.

(** The sequence of the specification: start from a name, apply [after] to
    the previous result, stop before the first absent result. *)
Inductive after_chain : option Name -> list Name -> Prop :=
| chain_stop : after_chain None []
| chain_step (c : Name) (next : option Name) (ys : list Name) :
    after items c = Ok next -> after_chain next ys -> after_chain (Some c) (c :: ys).

End Indexer.

Arguments resolve {Name} items after_ before_.
Arguments mapped_bounds {Name} items name_to_key after_ before_.
Arguments insert {Name} items name_to_key after_ before_.
Arguments insert_at_start {Name} items name_to_key.
Arguments insert_at_end {Name} items name_to_key.
Arguments iter_loop {Name} items fuel current.
Arguments iter {Name} items fuel.
Arguments after_chain {Name} items _ _.
Arguments Stop {Name}.
Arguments Fail {Name} e.
Arguments More {Name} current.

(** The default [name_to_key = lambda x:x]. *)
Definition identity (x : option string) : res (option string) := Ok x.

End Indexer.

(** ** The managed list

    [class ManagedListAccessor(SortedList)]: the keys are kept in a list in
    ascending order.  [SortedList] finds positions by bisection; on a sorted
    list [bisect_left] is the number of leading elements below the item and
    [bisect_right] the number of leading elements not above it.  The item of
    a query is any Python value: comparing [None] with a string raises. *)

Module ManagedList.

(** [x < y] on Python values that are a string or [None]. *)
Definition py_lt (x y : option string) : res bool :=
  match x, y with
  | Some a, Some b => Ok (a <? b)
  | _, _ => Raise TypeError
  end.

(** [SortedList.bisect_left]: no comparison is made on an empty list. *)
Fixpoint bisect_left (l : list string) (item : option string) : res nat :=
  match l with
  | [] => Ok 0
  | k :: l' =>
      below <- py_lt (Some k) item ;;
      if below then n <- bisect_left l' item ;; Ok (S n) else Ok 0
  end.

(** [SortedList.bisect_right] *)
Fixpoint bisect_right (l : list string) (item : option string) : res nat :=
  match l with
  | [] => Ok 0
  | k :: l' =>
      above <- py_lt item (Some k) ;;
      if above then Ok 0 else n <- bisect_right l' item ;; Ok (S n)
  end.

(** [self[i]] for [i >= 0] *)
Definition getitem (l : list string) (i : nat) : res string :=
  match nth_error l i with
  | Some k => Ok k
  | None => Raise IndexError
  end.

(** [SortedList.add]: the value goes to the right of the elements equal to it. *)
Fixpoint add (v : string) (l : list string) : list string :=
  match l with
  | [] => [v]
  | k :: l' => if v <? k then v :: k :: l' else k :: add v l'
  end.

(** [SortedList(iterable)]: the elements of the iterable, sorted. *)
Definition ManagedListAccessor (keys : list string) : list string :=
  fold_left (fun l v => add v l) keys [].

(** [ManagedListAccessor.after] *)
Definition after (l : list string) (item : option string) : res (option string) :=
  i <- bisect_right l item ;;
  if (i <? List.length l)%nat then k <- getitem l i ;; Ok (Some k) else Ok None.

(** [ManagedListAccessor.before]: [i = bisect_left(item) - 1] is at least 0
    when [bisect_left] is not 0. *)
Definition before (l : list string) (item : option string) : res (option string) :=
  n <- bisect_left l item ;;
  match n with
  | S i => k <- getitem l i ;; Ok (Some k)
  | 0 => Ok None
  end.

(** [ManagedListAccessor.first]: [self[0] if self else None] *)
Definition first (l : list string) : res (option string) :=
  match l with
  | [] => Ok None
  | _ => k <- getitem l 0 ;; Ok (Some k)
  end.

(** [ManagedListAccessor.last]: [self[-1] if self else None] *)
Definition last (l : list string) : res (option string) :=
  match l with
  | [] => Ok None
  | _ => k <- getitem l (List.length l - 1) ;; Ok (Some k)
  end.

(** The accessor that an Indexer sees: names are strings. *)
Definition accessor (l : list string) : Accessor string :=
  Build_Accessor string
    (first l) (last l)
    (fun name => before l (Some name))
    (fun name => after l (Some name)).

(** [ManagedListIndexer.insert]: the new key and the list after [add]; when
    the key generation raises, the list is left as it was. *)
Definition insert (l : list string) (after_ before_ : option string)
  : res (string * list string) :=
  new_idx <- Indexer.insert (accessor l) Indexer.identity after_ before_ ;;
  Ok (new_idx, add new_idx l).

(** [insert_at_start] and [insert_at_end] are inherited and call the
    [insert] of [ManagedListIndexer]. *)
Definition insert_at_start (l : list string) : res (string * list string) :=
  f <- first l ;; insert l None f.

Definition insert_at_end (l : list string) : res (string * list string) :=
  e <- last l ;; insert l e None.

(** [ManagedListIndexer(keys)] *)
Definition ManagedListIndexer (keys : list string) : list string :=
  ManagedListAccessor keys.

End ManagedList.

(** ** The directory of files

    [class FileAccessor]: the directory is the list of its entry names, in
    the order in which [iterdir] gives them. *)

Module Files.

Section FileAccessor.

Variable dir : list string.
Variable name_to_key : option string -> res (option string).

(** [retval[key] = name] on a dict kept as a list of pairs in insertion order *)
Fixpoint dict_set (d : list (string * string)) (key name : string)
  : list (string * string) :=
  match d with
  | [] => [(key, name)]
  | (k, n) :: d' => if k =? key then (k, name) :: d' else (k, n) :: dict_set d' key name
  end.

(** [d[key]] *)
Fixpoint dict_get (d : list (string * string)) (key : string) : res string :=
  match d with
  | [] => Raise KeyError
  | (k, n) :: d' => if k =? key then Ok n else dict_get d' key
  end.

(** The loop of [_key_names] *)
Fixpoint key_names_loop (names : list string) (retval : list (string * string))
  : res (list (string * string)) :=
  match names with
  | [] => Ok retval
  | name :: names' =>
      key <- name_to_key (Some name) ;;
      match key with
      | Some k => key_names_loop names' (dict_set retval k name)
      | None => key_names_loop names' retval
      end
  end.

Definition _key_names : res (list (string * string)) := key_names_loop dir [].

Definition _keys : res (list string) :=
  d <- _key_names ;; Ok (ManagedList.ManagedListAccessor (map fst d)).

(** [None if out_k is None else self._key_names()[out_k]] *)
Definition name_of (out_k : option string) : res (option string) :=
  match out_k with
  | None => Ok None
  | Some k => d <- _key_names ;; n <- dict_get d k ;; Ok (Some n)
  end.

Definition after (name : string) : res (option string) :=
  in_k <- name_to_key (Some name) ;;
  ks <- _keys ;;
  out_k <- ManagedList.after ks in_k ;;
  name_of out_k.

Definition before (name : string) : res (option string) :=
  in_k <- name_to_key (Some name) ;;
  ks <- _keys ;;
  out_k <- ManagedList.before ks in_k ;;
  name_of out_k.

Definition first : res (option string) :=
  ks <- _keys ;;
  in_k <- ManagedList.first ks ;;
  name_of in_k.

Definition last : res (option string) :=
  ks <- _keys ;;
  in_k <- ManagedList.last ks ;;
  name_of in_k.

Definition FileAccessor : Accessor string :=
  Build_Accessor string first last before after.

End FileAccessor.

(** [get_key_from_name] of the tests: the part of the name before [--], or
    [None] for [None] and for a name without [--]. *)
Fixpoint before_dashes (name : string) : option string :=
  match name with
  | "" => None
  | String c rest =>
      match c, rest with
      | "-"%char, String "-"%char _ => Some ""
      | _, _ => match before_dashes rest with
                | Some k => Some (String c k)
                | None => None
                end
      end
  end.

Definition get_key_from_name (name : option string) : res (option string) :=
  match name with
  | Some n => Ok (before_dashes n)
  | None => Ok None
  end.

End Files.

(** ** Statements about ordered collections *)

Definition str_le (s t : string) : Prop := s <s t \/ s = t.

(** [r] is the greatest element of [l] strictly below [x], or [None] when
    no element of [l] is below [x]. *)
Definition greatest_below (l : list string) (x : string) (r : option string) : Prop :=
  match r with
  | Some p => In p l /\ p <s x /\ forall k, In k l -> k <s x -> str_le k p
  | None => forall k, In k l -> ~ k <s x
  end.

(** [r] is the least element of [l] strictly above [x], or [None] when no
    element of [l] is above [x]. *)
Definition least_above (l : list string) (x : string) (r : option string) : Prop :=
  match r with
  | Some p => In p l /\ x <s p /\ forall k, In k l -> x <s k -> str_le p k
  | None => forall k, In k l -> ~ x <s k
  end.

(** [r] is the smallest element of [l], or [None] when [l] is empty. *)
Definition smallest_of (l : list string) (r : option string) : Prop :=
  match r with
  | Some m => In m l /\ forall k, In k l -> str_le m k
  | None => l = []
  end.

(** [r] is the largest element of [l], or [None] when [l] is empty. *)
Definition largest_of (l : list string) (r : option string) : Prop :=
  match r with
  | Some m => In m l /\ forall k, In k l -> str_le k m
  | None => l = []
  end.

(** The heads of integer parts in ascending order: [A]..[Z] below, [a]..[z]
    above. *)
Definition integer_heads : string :=
  "ABCDEFGHIJKLMNOPQRSTUVWXYZabcdefghijklmnopqrstuvwxyz".

(** A mapping that gives a key to every name and to [None] as well. *)
Definition key_or_a0 (name : option string) : res (option string) :=
  match name with
  | Some n => Ok (Some n)
  | None => Ok (Some "a0")
  end.

(** An accessor answers for the ordered collection [l]: [first()] is its
    head, and [after] of an item is the item that follows it. *)
Definition lists_collection {Name : Type} (items : Accessor Name) (l : list Name) : Prop :=
  first items = Ok (hd_error l) /\
  forall l1 x l2, l = (l1 ++ x :: l2)%list -> after items x = Ok (hd_error l2).

(** What one operation of [ManagedListIndexer] does to the list [l] when it
    returns the key [k] and leaves the list [l']: the key is put between two
    parts of [l], which are otherwise left as they are. *)
Definition adds_key (l : list string) (k : string) (l' : list string) : Prop :=
  (exists l1 l2, l = (l1 ++ l2)%list /\ l' = (l1 ++ k :: l2)%list) /\
  List.length l' = S (List.length l) /\
  (StronglySorted str_le l -> StronglySorted str_le l') /\
  (StronglySorted str_lt l -> ~ In k l -> StronglySorted str_lt l').

(** ** The scenarios of the tests *)

(** [test_managed_list_indexer]: the keys [i1]..[i6] and the final list. *)
Definition managed_list_scenario : res (list string * list string) :=
  let l0 := ManagedList.ManagedListIndexer [] in
  '(i1, l1) <- ManagedList.insert l0 None None ;;
  '(i2, l2) <- ManagedList.insert l1 (Some i1) None ;;
  '(i3, l3) <- ManagedList.insert l2 None (Some i2) ;;
  '(i4, l4) <- ManagedList.insert l3 (Some i3) (Some i2) ;;
  '(i5, l5) <- ManagedList.insert l4 None None ;;
  '(i6, l6) <- ManagedList.insert_at_start l5 ;;
  Ok ([i1; i2; i3; i4; i5; i6], l6).

(** [add_file] of [test_named_file_indexer]: the name of the new file. *)
Definition add_file (key : string) : string := key ++ "--a".

(** [_test_indexer] on a [FileIndexer] over an empty directory: the names
    [i1name]..[i6name] and what iterating the Indexer yields at the end. *)
Definition file_scenario : res (list string * (list string * Indexer.iter_end string)) :=
  let idx (dir : list string) :=
    Files.FileAccessor dir Files.get_key_from_name in
  let ins (dir : list string) (a b : option string) :=
    Indexer.insert (idx dir) Files.get_key_from_name a b in
  let d0 := [] in
  i1 <- ins d0 None None ;;
  let d1 := (d0 ++ [add_file i1])%list in
  i2 <- ins d1 (Some (add_file i1)) None ;;
  let d2 := (d1 ++ [add_file i2])%list in
  i3 <- ins d2 None (Some (add_file i2)) ;;
  let d3 := (d2 ++ [add_file i3])%list in
  i4 <- ins d3 (Some (add_file i3)) (Some (add_file i2)) ;;
  let d4 := (d3 ++ [add_file i4])%list in
  i5 <- ins d4 None None ;;
  let d5 := (d4 ++ [add_file i5])%list in
  i6 <- Indexer.insert_at_start (idx d5) Files.get_key_from_name ;;
  let d6 := (d5 ++ [add_file i6])%list in
  Ok (map add_file [i1; i2; i3; i4; i5; i6], Indexer.iter (idx d6) 6).

(** ** More of the managed list Indexer *)

Module ManagedIndexer.

(** [ManagedListIndexer.__len__] *)
Definition __len__ (l : list string) : nat := List.length l.

(** [ManagedListIndexer.__getitem__] for an integer [key]: a negative index
    counts from the end, and an index outside the list raises. *)
Definition __getitem__ (l : list string) (key : Z) : res string :=
  let n := Z.of_nat (List.length l) in
  let i := if (key <? 0)%Z then (key + n)%Z else key in
  if ((i <? 0) || (n <=? i))%Z then Raise IndexError
  else ManagedList.getitem l (Z.to_nat i).

(** The lists that a [ManagedListIndexer(keys)] can hold: the one it starts
    with, and the one that an [insert], [insert_at_start] or [insert_at_end]
    which returned a key leaves.  The second list holds the keys that these
    calls returned, the latest first. *)
Inductive reachable (keys : list string) : list string -> list string -> Prop :=
| reach_init : reachable keys (ManagedList.ManagedListIndexer keys) []
| reach_insert (l l' ks : list string) (a b : option string) (k : string) :
    reachable keys l ks ->
    ManagedList.insert l a b = Ok (k, l') ->
    reachable keys l' (k :: ks)
| reach_insert_at_start (l l' ks : list string) (k : string) :
    reachable keys l ks ->
    ManagedList.insert_at_start l = Ok (k, l') ->
    reachable keys l' (k :: ks)
| reach_insert_at_end (l l' ks : list string) (k : string) :
    reachable keys l ks ->
    ManagedList.insert_at_end l = Ok (k, l') ->
    reachable keys l' (k :: ks).

End ManagedIndexer.

(** ** More of the directory of files *)

Module FileNames.

Section FileNames.

Variable dir : list string.
Variable name_to_key : option string -> res (option string).

(** [FileAccessor._k_to_n] *)
Definition _k_to_n (k : option string) : res (option string) :=
  match k with
  | None => Ok None
  | Some key =>
      d <- Files._key_names dir name_to_key ;;
      n <- Files.dict_get d key ;;
      Ok (Some n)
  end.

(** [FileAccessor._n_to_f_to_n] *)
Definition _n_to_f_to_n (f : string -> res (option string)) (n : string)
  : res (option string) :=
  k <- f n ;; _k_to_n k.

End FileNames.

(** No entry of [names] has the key [k]. *)
Definition no_key (name_to_key : option string -> res (option string))
    (names : list string) (k : string) : Prop :=
  forall m, In m names -> name_to_key (Some m) <> Ok (Some k).

(** The last entry of [names] that has the key [k] is [n]. *)
Definition last_with_key (name_to_key : option string -> res (option string))
    (names : list string) (k n : string) : Prop :=
  exists l1 l2,
    names = (l1 ++ n :: l2)%list /\
    name_to_key (Some n) = Ok (Some k) /\
    forall m, In m l2 -> name_to_key (Some m) <> Ok (Some k).

(** The answer [r] of a read operation is the name for the key [kr]: both
    absent, or [r] the last entry that has the key [kr]. *)
Definition name_for (name_to_key : option string -> res (option string))
    (names : list string) (kr r : option string) : Prop :=
  match kr, r with
  | None, None => True
  | Some k, Some n => last_with_key name_to_key names k n
  | _, _ => False
  end.

End FileNames.

(** [class FileIndexer]: an Indexer over a [FileAccessor], with the same
    mapping for the accessor and for the Indexer. *)
Module FileIndexer.

Section FileIndexer.

Variable dir : list string.
Variable name_to_key : option string -> res (option string).

Definition insert (after_ before_ : option string) : res string :=
  Indexer.insert (Files.FileAccessor dir name_to_key) name_to_key after_ before_.

Definition iter (fuel : nat) : list string * Indexer.iter_end string :=
  Indexer.iter (Files.FileAccessor dir name_to_key) fuel.

End FileIndexer.

End FileIndexer.

(** ** The table of a database

    [class SqliteAccessor]: the table is the list of the values that its rows
    hold in the column, in any order; the values are text and SQLite compares
    them as Python compares strings.  The four queries that the accessor
    builds are an aggregate, [min] or [max], over the rows that a condition
    selects. *)

Module Sqlite.

Inductive aggregate : Type := agg_min | agg_max.

(** The [where] clause: none, [col<?] or [col>?] with its parameter. *)
Inductive condition : Type :=
| no_where
| col_lt (item : string)
| col_gt (item : string).

Definition selects (w : condition) (v : string) : bool :=
  match w with
  | no_where => true
  | col_lt item => v <? item
  | col_gt item => item <? v
  end.

(** [MIN(col)] and [MAX(col)]: SQL [NULL], Python [None], over no row. *)
Fixpoint sql_min (vs : list string) : option string :=
  match vs with
  | [] => None
  | v :: vs' =>
      match sql_min vs' with
      | None => Some v
      | Some m => Some (if v <? m then v else m)
      end
  end.

Fixpoint sql_max (vs : list string) : option string :=
  match vs with
  | [] => None
  | v :: vs' =>
      match sql_max vs' with
      | None => Some v
      | Some m => Some (if m <? v then v else m)
      end
  end.

Section SqliteAccessor.

Variable rows : list string.

(** [SqliteAccessor.fetchone]: an aggregate query gives one row, so
    [r[0] if r else None] is the value of the aggregate. *)
Definition fetchone (m : aggregate) (w : condition) : res (option string) :=
  let vs := filter (selects w) rows in
  Ok (match m with
      | agg_min => sql_min vs
      | agg_max => sql_max vs
      end).

Definition first : res (option string) := fetchone agg_min no_where.
Definition last : res (option string) := fetchone agg_max no_where.
Definition before (item : string) : res (option string) :=
  fetchone agg_max (col_lt item).
Definition after (item : string) : res (option string) :=
  fetchone agg_min (col_gt item).

Definition SqliteAccessor : Accessor string :=
  Build_Accessor string first last before after.

End SqliteAccessor.

(** [name_to_key] of [test_sqlite_indexer_with_names]: the part of the name
    between the first [-] and the next one, [None] for [None] and for a name
    without [-]. *)
Fixpoint upto_dash (s : string) : string :=
  match s with
  | "" => ""
  | String c rest => if Ascii.eqb c "-" then "" else String c (upto_dash rest)
  end.

Fixpoint after_dash (s : string) : option string :=
  match s with
  | "" => None
  | String c rest => if Ascii.eqb c "-" then Some (upto_dash rest) else after_dash rest
  end.

Definition name_to_key (name : option string) : res (option string) :=
  match name with
  | Some n => Ok (after_dash n)
  | None => Ok None
  end.

(** [add_record] of [test_sqlite_indexer_with_names] *)
Definition add_record (key : string) : string := "msg-" ++ key.

(** [_test_indexer] on a [SqliteIndexer] with names over an empty table: the
    names [i1name]..[i6name] and what iterating the Indexer yields. *)
Definition names_scenario : res (list string * (list string * Indexer.iter_end string)) :=
  let ins (rows : list string) (a b : option string) :=
    Indexer.insert (SqliteAccessor rows) name_to_key a b in
  let t0 := [] in
  i1 <- ins t0 None None ;;
  let t1 := add_record i1 :: t0 in
  i2 <- ins t1 (Some (add_record i1)) None ;;
  let t2 := add_record i2 :: t1 in
  i3 <- ins t2 None (Some (add_record i2)) ;;
  let t3 := add_record i3 :: t2 in
  i4 <- ins t3 (Some (add_record i3)) (Some (add_record i2)) ;;
  let t4 := add_record i4 :: t3 in
  i5 <- ins t4 None None ;;
  let t5 := add_record i5 :: t4 in
  i6 <- Indexer.insert_at_start (SqliteAccessor t5) name_to_key ;;
  let t6 := add_record i6 :: t5 in
  Ok (map add_record [i1; i2; i3; i4; i5; i6], Indexer.iter (SqliteAccessor t6) 6).

End Sqlite.

(** * Properties

    ** Order on characters and strings *)

Lemma ascii_compare_lt (c d : ascii) : Ascii.compare c d = Lt <-> c <c d.
Proof.
  unfold Ascii.compare, chr_lt, nat_of_ascii.
  rewrite N.compare_lt_iff. lia.
Qed.

Lemma ascii_compare_eq (c d : ascii) : Ascii.compare c d = Eq <-> c = d.
Proof.
  split.
  - apply Ascii.compare_eq_iff.
  - intros ->. unfold Ascii.compare. apply N.compare_refl.
Qed.

Lemma ascii_compare_gt (c d : ascii) : Ascii.compare c d = Gt <-> d <c c.
Proof.
  unfold Ascii.compare, chr_lt, nat_of_ascii.
  rewrite N.compare_gt_iff. lia.
Qed.

Lemma nat_of_ascii_inj (c d : ascii) : nat_of_ascii c = nat_of_ascii d -> c = d.
Proof.
  intros H. rewrite <- (ascii_nat_embedding c), <- (ascii_nat_embedding d).
  now rewrite H.
Qed.

Lemma chr_lt_irrefl (c : ascii) : ~ c <c c.
Proof. unfold chr_lt. lia. Qed.

Lemma chr_lt_trans (c d e : ascii) : c <c d -> d <c e -> c <c e.
Proof. unfold chr_lt. lia. Qed.

Lemma chr_trichotomy (c d : ascii) : c <c d \/ c = d \/ d <c c.
Proof.
  unfold chr_lt.
  destruct (Nat.lt_trichotomy (nat_of_ascii c) (nat_of_ascii d)) as [H|[H|H]];
    auto using nat_of_ascii_inj.
Qed.

Lemma str_lt_cons (c d : ascii) (s t : string) :
  String c s <s String d t <-> c <c d \/ (c = d /\ s <s t).
Proof.
  unfold str_lt. simpl.
  destruct (Ascii.compare c d) eqn:E.
  - apply ascii_compare_eq in E. subst d. split; auto.
    intros [H|[_ H]]; auto. now apply chr_lt_irrefl in H.
  - apply ascii_compare_lt in E. tauto.
  - apply ascii_compare_gt in E. split; [discriminate|].
    intros [H|[-> _]].
    + exfalso. eapply chr_lt_irrefl, chr_lt_trans; eauto.
    + now apply chr_lt_irrefl in E.
Qed.

Lemma str_lt_nil_l (c : ascii) (s : string) : "" <s String c s.
Proof. reflexivity. Qed.

Lemma str_lt_nil_r (s : string) : ~ s <s "".
Proof. destruct s; discriminate. Qed.

Lemma str_lt_irrefl (s : string) : ~ s <s s.
Proof.
  induction s as [|c s IH].
  - discriminate.
  - rewrite str_lt_cons. intros [H|[_ H]]; auto. now apply chr_lt_irrefl in H.
Qed.

Lemma str_lt_trans (s t u : string) : s <s t -> t <s u -> s <s u.
Proof.
  revert t u. induction s as [|c s IH]; intros [|d t] [|e u] H1 H2;
    try (now apply str_lt_nil_r in H1); try (now apply str_lt_nil_r in H2);
    try apply str_lt_nil_l.
  apply str_lt_cons in H1. apply str_lt_cons in H2. apply str_lt_cons.
  destruct H1 as [H1|[-> H1]], H2 as [H2|[-> H2]]; eauto using chr_lt_trans.
Qed.

Lemma str_trichotomy (s t : string) : s <s t \/ s = t \/ t <s s.
Proof.
  revert t. induction s as [|c s IH]; intros [|d t].
  - auto.
  - left. apply str_lt_nil_l.
  - right. right. apply str_lt_nil_l.
  - rewrite !str_lt_cons.
    destruct (chr_trichotomy c d) as [H|[->|H]]; auto.
    destruct (IH t) as [H|[->|H]]; auto.
Qed.

Lemma ltb_lt (s t : string) : (s <? t) = true <-> s <s t.
Proof.
  unfold String.ltb, str_lt. destruct (s ?= t); split; congruence.
Qed.

Lemma leb_le (s t : string) : (s <=? t) = true <-> s <s t \/ s = t.
Proof.
  unfold String.leb, str_lt.
  destruct (s ?= t) eqn:E.
  - apply String.compare_eq_iff in E. tauto.
  - tauto.
  - split; [discriminate|]. intros [H|H]; [discriminate|].
    subst t. destruct (str_lt_irrefl s).
    rewrite String.compare_antisym in E.
    unfold str_lt. destruct (s ?= s); simpl in E; congruence.
Qed.

Lemma str_lt_app_l (p s t : string) : p ++ s <s p ++ t <-> s <s t.
Proof.
  induction p as [|c p IH]; simpl.
  - tauto.
  - rewrite str_lt_cons, IH. split; auto.
    intros [H|[_ H]]; auto. now apply chr_lt_irrefl in H.
Qed.

Lemma str_lt_app_nonempty (s t : string) : t <> "" -> s <s s ++ t.
Proof.
  intros H. induction s as [|c s IH]; simpl.
  - destruct t; [congruence|apply str_lt_nil_l].
  - apply str_lt_cons. auto.
Qed.

Lemma app_assoc_str (s t u : string) : (s ++ t) ++ u = s ++ t ++ u.
Proof. induction s; simpl; congruence. Qed.

Lemma app_nil_r_str (s : string) : s ++ "" = s.
Proof. induction s; simpl; congruence. Qed.

Lemma app_length_str (s t : string) :
  String.length (s ++ t) = String.length s + String.length t.
Proof. induction s; simpl; congruence. Qed.

Lemma str_below_app (s t u v : string) : str_below s t -> s ++ u <s t ++ v.
Proof.
  intros (p & c & d & s' & t' & -> & -> & H).
  rewrite !app_assoc_str. apply str_lt_app_l. simpl. apply str_lt_cons. auto.
Qed.

Lemma str_below_lt (s t : string) : str_below s t -> s <s t.
Proof.
  intros H. apply (str_below_app _ _ "" "") in H. now rewrite !app_nil_r_str in H.
Qed.

Lemma str_below_head (c d : ascii) (s t : string) :
  c <c d -> str_below (String c s) (String d t).
Proof. intros H. now exists "", c, d, s, t. Qed.

Lemma str_below_tail (c : ascii) (s t : string) :
  str_below s t -> str_below (String c s) (String c t).
Proof.
  intros (p & x & y & s' & t' & -> & -> & H).
  now exists (String c p), x, y, s', t'.
Qed.

(** Two strings of the same length that differ, and are ordered once extended,
    are ordered at a position. *)
Lemma str_below_of_lt (s t u v : string) :
  String.length s = String.length t -> s <> t -> s ++ u <s t ++ v -> str_below s t.
Proof.
  revert t. induction s as [|c s IH]; intros [|d t] L N H; simpl in *;
    try discriminate; try congruence.
  apply str_lt_cons in H. destruct H as [H|[-> H]].
  - now apply str_below_head.
  - apply str_below_tail, IH; auto. congruence.
Qed.

(** ** The key codec *)

Module KeyGenFacts.

Import KeyGen.

(** *** The codec on the examples of the specification *)

Example midpoint_49_5 : midpoint "49" "5" = Ok "4a".
Proof. reflexivity. Qed.

Example midpoint_empty_001 : midpoint "" "001" = Ok "000V".
Proof. reflexivity. Qed.

Example midpoint_1_3 : midpoint "1" "3" = Ok "2".
Proof. reflexivity. Qed.

Example between_none_none : generate_key_between None None = Ok "a0".
Proof. reflexivity. Qed.

Example between_a0_none : generate_key_between (Some "a0") None = Ok "a1".
Proof. reflexivity. Qed.

Example between_a0_a1 : generate_key_between (Some "a0") (Some "a1") = Ok "a0V".
Proof. reflexivity. Qed.

Example between_none_a0 : generate_key_between None (Some "a0") = Ok "Zz".
Proof. reflexivity. Qed.

Example between_az_none : generate_key_between (Some "az") None = Ok "b00".
Proof. reflexivity. Qed.

Example between_a5_a9 : generate_key_between (Some "a5") (Some "a9") = Ok "a6".
Proof. reflexivity. Qed.

Example between_b_a : generate_key_between (Some "b") (Some "a") = Raise InvalidOrder.
Proof. reflexivity. Qed.

Example between_Zz_a1 : generate_key_between (Some "Zz") (Some "a1") = Ok "a0".
Proof. reflexivity. Qed.

Example between_none_Y00 : generate_key_between None (Some "Y00") = Ok "Xzzz".
Proof. reflexivity. Qed.

Example between_bzz_none : generate_key_between (Some "bzz") None = Ok "c000".
Proof. reflexivity. Qed.

Example between_b125_b129 : generate_key_between (Some "b125") (Some "b129") = Ok "b127".
Proof. reflexivity. Qed.

Example between_trailing_zero : generate_key_between (Some "a00") None = Raise InvalidKey.
Proof. reflexivity. Qed.

Example between_a1_a0 : generate_key_between (Some "a1") (Some "a0") = Raise InvalidOrder.
Proof. reflexivity. Qed.

(** *** Facts about the digits *)

Lemma midpoint_open_cons (x : ascii) (a' : string) :
  midpoint_open (String x a') =
  match digit_index x with
  | None => Raise InvalidKey
  | Some da =>
      if (1 <? base - da)%nat then Ok (String (digit_at (half_up da base)) "")
      else s <- midpoint_open a' ;; Ok (String (digit_at da) s)
  end.
Proof. reflexivity. Qed.

#[local] Arguments base : simpl never.
#[local] Arguments half_up : simpl never.
#[local] Arguments digit_at : simpl never.
#[local] Arguments digit_index : simpl never.
#[local] Arguments is_digit : simpl never.

Lemma index_of_get (c : ascii) (s : string) (i : nat) :
  index_of c s = Some i -> String.get i s = Some c.
Proof.
  revert i. induction s as [|d s IH]; intros i; simpl; [discriminate|].
  destruct (Ascii.eqb_spec d c) as [->|N].
  - now intros [= <-].
  - destruct (index_of c s) as [j|]; [|discriminate].
    intros [= <-]. now apply IH.
Qed.

Lemma get_lt (s : string) (i : nat) (c : ascii) :
  String.get i s = Some c -> i < String.length s.
Proof.
  revert i. induction s as [|d s IH]; intros [|i]; simpl; try discriminate.
  - lia.
  - intros H. apply IH in H. lia.
Qed.

Lemma digit_index_lt (c : ascii) (i : nat) : digit_index c = Some i -> i < base.
Proof. intros H. apply index_of_get in H. now apply get_lt in H. Qed.

Lemma digit_at_index (c : ascii) (i : nat) : digit_index c = Some i -> digit_at i = c.
Proof. intros H. apply index_of_get in H. unfold digit_at. now rewrite H. Qed.

Lemma below_base (P : nat -> bool) :
  forallb P (seq 0 base) = true -> forall i, i < base -> P i = true.
Proof.
  intros H i Hi. rewrite forallb_forall in H. apply H, in_seq. lia.
Qed.

Lemma digit_index_at (i : nat) : i < base -> digit_index (digit_at i) = Some i.
Proof.
  intros Hi.
  apply (below_base (fun i => match digit_index (digit_at i) with
                              | Some j => (j =? i)%nat | None => false end))
    in Hi; [|now vm_compute].
  destruct (digit_index (digit_at i)); [|discriminate].
  apply Nat.eqb_eq in Hi. congruence.
Qed.

Lemma digit_at_mono (i j : nat) : i < j -> j < base -> digit_at i <c digit_at j.
Proof.
  intros Hij Hj.
  assert (Hi : i < base) by lia.
  apply (below_base (fun j => forallb (fun i =>
           (j <=? i)%nat || (nat_of_ascii (digit_at i) <? nat_of_ascii (digit_at j))%nat)
           (seq 0 base))) in Hj; [|now vm_compute].
  apply below_base with (i := i) in Hj; [|exact Hi].
  apply orb_true_iff in Hj. destruct Hj as [H|H].
  - apply Nat.leb_le in H. lia.
  - now apply Nat.ltb_lt in H.
Qed.

Lemma digit_index_mono (c d : ascii) (i j : nat) :
  digit_index c = Some i -> digit_index d = Some j -> c <c d -> i < j.
Proof.
  intros Hc Hd H.
  destruct (Nat.lt_trichotomy i j) as [L|[E|L]]; auto; exfalso.
  - subst j. apply digit_at_index in Hc, Hd. subst. now apply chr_lt_irrefl in H.
  - pose proof (digit_index_lt _ _ Hc).
    apply digit_at_index in Hc, Hd. subst.
    eapply chr_lt_irrefl, chr_lt_trans; [exact H|]. now apply digit_at_mono.
Qed.

Lemma is_digit_index (c : ascii) : is_digit c = true -> exists i, digit_index c = Some i.
Proof. unfold is_digit. destruct (digit_index c); eauto. discriminate. Qed.

Lemma half_up_between (da db : nat) : 1 < db - da -> da < half_up da db < db.
Proof.
  intros H. unfold half_up. split.
  - apply Nat.div_le_lower_bound; lia.
  - apply Nat.Div0.div_lt_upper_bound; lia.
Qed.

Lemma digit_index_zero : digit_index zero = Some 0.
Proof. reflexivity. Qed.

Lemma digit_at_is_digit (i : nat) : i < base -> is_digit (digit_at i) = true.
Proof. intros H. unfold is_digit. now rewrite digit_index_at. Qed.

Lemma digit_at_nonzero (i : nat) : 0 < i -> i < base -> Ascii.eqb (digit_at i) zero = false.
Proof.
  intros H0 Hi. apply Ascii.eqb_neq. intros E.
  apply digit_index_at in Hi. rewrite E, digit_index_zero in Hi.
  injection Hi. lia.
Qed.

Lemma ends_with_zero_cons (c : ascii) (s : string) :
  s <> "" -> ends_with_zero (String c s) = ends_with_zero s.
Proof. destruct s; [congruence|reflexivity]. Qed.

Lemma all_digits_cons (c : ascii) (s : string) :
  all_digits (String c s) = true <-> is_digit c = true /\ all_digits s = true.
Proof. simpl. apply andb_true_iff. Qed.

(** *** The open midpoint lies above its argument *)

Lemma midpoint_open_spec (a : string) :
  all_digits a = true ->
  exists m, midpoint_open a = Ok m /\ a <s m /\ m <> ""
            /\ all_digits m = true /\ ends_with_zero m = false.
Proof.
  induction a as [|x a IH]; intros D.
  - exists (String (digit_at (half_up 0 base)) ""). now vm_compute.
  - apply all_digits_cons in D. destruct D as [Dx Da].
    apply is_digit_index in Dx. destruct Dx as [da Hx].
    pose proof (digit_index_lt _ _ Hx) as Hlt.
    rewrite midpoint_open_cons, Hx.
    destruct (Nat.ltb_spec 1 (base - da)) as [G|G].
    + destruct (half_up_between da base G) as [G1 G2].
      eexists. split; [reflexivity|].
      repeat split.
      * apply str_lt_cons. left.
        rewrite <- (digit_at_index _ _ Hx) at 1. now apply digit_at_mono.
      * discriminate.
      * simpl. rewrite digit_at_is_digit; auto.
      * simpl. apply digit_at_nonzero; lia.
    + destruct (IH Da) as (m & -> & Lm & Nm & Dm & Zm). simpl.
      eexists. split; [reflexivity|].
      rewrite (digit_at_index _ _ Hx).
      repeat split.
      * apply str_lt_cons. auto.
      * discriminate.
      * apply all_digits_cons. split; auto. unfold is_digit. now rewrite Hx.
      * now rewrite ends_with_zero_cons.
Qed.

(** *** The midpoint lies strictly between its arguments *)

Lemma midpoint_spec (b a : string) :
  all_digits a = true -> all_digits b = true -> ends_with_zero b = false ->
  a <s b ->
  exists m, midpoint a b = Ok m /\ a <s m /\ m <s b
            /\ all_digits m = true /\ ends_with_zero m = false.
Proof.
  revert a. induction b as [|y b IH]; intros a Da Db Zb L.
  - now apply str_lt_nil_r in L.
  - apply all_digits_cons in Db. destruct Db as [Dy Db].
    pose proof Dy as Dy'. apply is_digit_index in Dy'. destruct Dy' as [db Hy].
    pose proof (digit_index_lt _ _ Hy) as Hdb.
    set (x := match a with "" => zero | String x _ => x end).
    set (a' := match a with "" => "" | String _ a' => a' end).
    assert (Da' : all_digits a' = true).
    { destruct a; auto. apply all_digits_cons in Da. tauto. }
    assert (Hx : exists da, digit_index x = Some da).
    { destruct a; [exists 0; reflexivity|].
      apply all_digits_cons in Da. now apply is_digit_index. }
    destruct Hx as [da Hx].
    change (midpoint a (String y b)) with
      (if Ascii.eqb x y then s <- midpoint a' b ;; Ok (String y s)
       else match digit_index x, digit_index y with
            | Some da, Some db =>
                if (1 <? db - da)%nat then Ok (String (digit_at (half_up da db)) "")
                else match b with
                     | "" => s <- midpoint_open a' ;; Ok (String (digit_at da) s)
                     | _ => Ok (String y "")
                     end
            | _, _ => Raise InvalidKey
            end).
    destruct (Ascii.eqb_spec x y) as [E|N].
    + (* common first digit *)
      assert (Nb : b <> "").
      { intros ->. destruct a as [|x0 a0]; subst x; simpl in *.
        - subst y. discriminate.
        - subst y. apply str_lt_cons in L.
          destruct L as [L|[_ L]]; [now apply chr_lt_irrefl in L|].
          now apply str_lt_nil_r in L. }
      assert (L' : a' <s b).
      { destruct a as [|x0 a0]; subst x a'; simpl in *.
        - destruct b; [congruence|apply str_lt_nil_l].
        - subst y. apply str_lt_cons in L.
          destruct L as [L|[_ L]]; [now apply chr_lt_irrefl in L|auto]. }
      rewrite ends_with_zero_cons in Zb by auto.
      destruct (IH a' Da' Db Zb L') as (m & -> & L1 & L2 & Dm & Zm). simpl.
      eexists. split; [reflexivity|].
      assert (Nm : m <> "") by (intros ->; now apply str_lt_nil_r in L1).
      repeat split.
      * destruct a as [|x0 a0]; [apply str_lt_nil_l|].
        subst x a'. simpl in *. subst y. apply str_lt_cons. auto.
      * apply str_lt_cons. auto.
      * apply all_digits_cons. auto.
      * now rewrite ends_with_zero_cons.
    + (* first digits differ *)
      assert (Lxy : da < db).
      { destruct a as [|x0 a0]; subst x; simpl in *.
        - rewrite digit_index_zero in Hx. injection Hx as <-.
          destruct db; [|lia]. exfalso. apply N.
          now rewrite <- (digit_at_index _ _ Hy).
        - apply str_lt_cons in L. destruct L as [L|[E _]]; [|congruence].
          eapply digit_index_mono; eauto. }
      rewrite Hx, Hy.
      assert (La : forall c s, x <c c -> a <s String c s).
      { intros c s Hc. destruct a as [|x0 a0]; [apply str_lt_nil_l|].
        apply str_lt_cons. auto. }
      destruct (Nat.ltb_spec 1 (db - da)) as [G|G].
      * destruct (half_up_between da db G) as [G1 G2].
        eexists. split; [reflexivity|].
        repeat split.
        -- apply La. rewrite <- (digit_at_index _ _ Hx). apply digit_at_mono; lia.
        -- apply str_lt_cons. left.
           rewrite <- (digit_at_index _ _ Hy). now apply digit_at_mono.
        -- simpl. rewrite digit_at_is_digit; auto; lia.
        -- simpl. apply digit_at_nonzero; lia.
      * assert (Cxy : x <c y).
        { rewrite <- (digit_at_index _ _ Hx), <- (digit_at_index _ _ Hy).
          now apply digit_at_mono. }
        destruct b as [|z b].
        -- destruct (midpoint_open_spec a' Da') as (m & -> & Lm & Nm & Dm & Zm).
           simpl. eexists. split; [reflexivity|].
           rewrite (digit_at_index _ _ Hx).
           repeat split.
           ++ destruct a as [|x0 a0]; [apply str_lt_nil_l|].
              subst x a'. apply str_lt_cons. auto.
           ++ apply str_lt_cons. auto.
           ++ apply all_digits_cons. split; auto. unfold is_digit. now rewrite Hx.
           ++ now rewrite ends_with_zero_cons.
        -- eexists. split; [reflexivity|].
           repeat split.
           ++ now apply La.
           ++ apply str_lt_cons. right. split; auto. apply str_lt_nil_l.
           ++ simpl. now rewrite Dy.
           ++ simpl. apply Ascii.eqb_neq. intros ->.
              rewrite digit_index_zero in Hy. injection Hy. lia.
Qed.

(** *** Well-formed keys *)

Lemma take_drop (n : nat) (s : string) : take n s ++ drop n s = s.
Proof.
  revert s. induction n as [|n IH]; intros [|c s]; simpl; auto. now rewrite IH.
Qed.

Lemma take_length (n : nat) (s : string) :
  n <= String.length s -> String.length (take n s) = n.
Proof.
  revert s. induction n as [|n IH]; intros [|c s]; simpl; auto; try lia.
  intros H. rewrite IH; lia.
Qed.

Lemma all_digits_app (s t : string) :
  all_digits (s ++ t) = true <-> all_digits s = true /\ all_digits t = true.
Proof.
  induction s as [|c s IH]; simpl.
  - tauto.
  - rewrite !andb_true_iff, IH. tauto.
Qed.

Lemma get_integer_length_inv (head : ascii) (n : nat) :
  get_integer_length head = Ok n ->
  (97 <= ord head <= 122 /\ n = ord head - 95) \/
  (65 <= ord head <= 90 /\ n = 92 - ord head).
Proof.
  unfold get_integer_length.
  destruct ((ord "a" <=? ord head)%nat && (ord head <=? ord "z")%nat) eqn:E1;
    [|destruct ((ord "A" <=? ord head)%nat && (ord head <=? ord "Z")%nat) eqn:E2];
    intros H; try discriminate H.
  - assert (n = ord head - ord "a" + 2) as -> by congruence. clear H.
    apply andb_true_iff in E1. rewrite !Nat.leb_le in E1.
    change (ord "a") with 97 in *. change (ord "z") with 122 in *. lia.
  - assert (n = ord "Z" - ord head + 2) as -> by congruence. clear H E1.
    apply andb_true_iff in E2. rewrite !Nat.leb_le in E2.
    change (ord "A") with 65 in *. change (ord "Z") with 90 in *. lia.
Qed.

(** A well-formed key is a head, the digits that the head announces, and a
    fractional part that does not end with the zero digit. *)
Lemma valid_key_split (key : string) :
  valid_key key ->
  exists head digs frac n,
    key = String head (digs ++ frac) /\
    get_integer_length head = Ok n /\
    n = S (String.length digs) /\
    get_integer_part key = Ok (String head digs) /\
    drop (String.length (String head digs)) key = frac /\
    all_digits digs = true /\ all_digits frac = true /\
    ends_with_zero frac = false /\
    key <> smallest_integer.
Proof.
  unfold valid_key, validate_order_key.
  destruct (String.eqb_spec key smallest_integer) as [|Ns]; [discriminate|].
  destruct key as [|head rest]; [discriminate|].
  unfold get_integer_part.
  destruct (get_integer_length head) as [n|] eqn:Hn; [|discriminate].
  cbn [bind].
  destruct (Nat.ltb_spec (String.length (String head rest)) n) as [|Hlen];
    [discriminate|].
  cbn [bind].
  assert (Hn2 : exists n', n = S n' /\ n' <= String.length rest).
  { apply get_integer_length_inv in Hn. simpl in Hlen.
    destruct n as [|n']; [lia|]. exists n'. split; auto. lia. }
  destruct Hn2 as (n' & -> & Hn').
  cbn [take String.length drop].
  rewrite (take_length n' rest Hn').
  destruct (ends_with_zero (drop n' rest)) eqn:Z; [discriminate|].
  destruct (all_digits rest) eqn:D; [|discriminate].
  intros _.
  exists head, (take n' rest), (drop n' rest), (S n').
  rewrite take_drop, (take_length n' rest Hn').
  rewrite <- (take_drop n' rest) in D. apply all_digits_app in D.
  repeat split; tauto.
Qed.

Lemma valid_key_of_split (head : ascii) (digs frac : string) (n : nat) :
  get_integer_length head = Ok n ->
  n = S (String.length digs) ->
  all_digits digs = true -> all_digits frac = true ->
  ends_with_zero frac = false ->
  String head (digs ++ frac) <> smallest_integer ->
  valid_key (String head (digs ++ frac)).
Proof.
  intros Hn -> Dd Df Z Ns.
  unfold valid_key, validate_order_key.
  destruct (String.eqb_spec (String head (digs ++ frac)) smallest_integer);
    [congruence|].
  unfold get_integer_part. rewrite Hn. cbn [bind].
  assert (T : forall d f, take (String.length d) (d ++ f) = d).
  { induction d; simpl; auto. intros. now rewrite IHd. }
  assert (R : forall d f, drop (String.length d) (d ++ f) = f).
  { induction d; simpl; auto. }
  destruct (Nat.ltb_spec (String.length (String head (digs ++ frac)))
              (S (String.length digs))) as [H|_].
  { simpl in H. rewrite app_length_str in H. lia. }
  cbn [bind take String.length drop]. rewrite T, R, Z.
  replace (all_digits (digs ++ frac)) with true; auto.
  symmetry. apply all_digits_app. auto.
Qed.

(** *** Increment and decrement of the integer part *)

Lemma digit_ord_le (c : ascii) : is_digit c = true -> ord c <= ord "z".
Proof.
  intros H. apply is_digit_index in H. destruct H as [i H].
  pose proof (digit_index_lt _ _ H) as Hi.
  apply digit_at_index in H. subst c.
  apply (below_base (fun i => (ord (digit_at i) <=? ord "z")%nat)) in Hi;
    [|now vm_compute].
  now apply Nat.leb_le.
Qed.

Lemma incr_digits_cons (d : ascii) (digs : string) :
  incr_digits (String d digs) =
  ('(r, carry) <- incr_digits digs ;;
   if carry then
     match digit_index d with
     | None => Raise InvalidKey
     | Some i =>
         if (S i =? base)%nat then Ok (String zero r, true)
         else Ok (String (digit_at (S i)) r, false)
     end
   else Ok (String d r, false)).
Proof. reflexivity. Qed.

Lemma decr_digits_cons (d : ascii) (digs : string) :
  decr_digits (String d digs) =
  ('(r, borrow) <- decr_digits digs ;;
   if borrow then
     match digit_index d with
     | None => Raise InvalidKey
     | Some 0 => Ok (String (digit_at (base - 1)) r, true)
     | Some (S i) => Ok (String (digit_at i) r, false)
     end
   else Ok (String d r, false)).
Proof. reflexivity. Qed.

Lemma incr_digits_spec (digs : string) :
  all_digits digs = true ->
  exists r carry,
    incr_digits digs = Ok (r, carry) /\
    (carry = false -> str_below digs r) /\
    (carry = true -> digs = str_repeat (digit_at (base - 1)) (String.length digs)).
Proof.
  induction digs as [|d digs IH]; intros D.
  - exists "", true. repeat split; auto; discriminate.
  - apply all_digits_cons in D. destruct D as [Dd D].
    destruct (IH D) as (r & carry & E & Hf & Ht).
    apply is_digit_index in Dd. destruct Dd as [i Hi].
    rewrite incr_digits_cons, E. cbn [bind str_repeat String.length]. destruct carry.
    + rewrite Hi. destruct (Nat.eqb_spec (S i) base) as [B|B].
      * eexists _, true. repeat split; [discriminate|]. intros _.
        rewrite <- Ht by auto. f_equal.
        apply digit_at_index in Hi. rewrite <- Hi. f_equal. lia.
      * eexists _, false. repeat split; [|discriminate]. intros _.
        apply str_below_head. pose proof (digit_index_lt _ _ Hi).
        rewrite <- (digit_at_index _ _ Hi) at 1. apply digit_at_mono; lia.
    + eexists _, false. repeat split; [|discriminate]. intros _.
      now apply str_below_tail, Hf.
Qed.

Lemma decr_digits_spec (digs : string) :
  all_digits digs = true ->
  exists r borrow,
    decr_digits digs = Ok (r, borrow) /\
    (borrow = false -> str_below r digs) /\
    (borrow = true -> digs = str_repeat zero (String.length digs)).
Proof.
  induction digs as [|d digs IH]; intros D.
  - exists "", true. repeat split; auto; discriminate.
  - apply all_digits_cons in D. destruct D as [Dd D].
    destruct (IH D) as (r & borrow & E & Hf & Ht).
    apply is_digit_index in Dd. destruct Dd as [i Hi].
    rewrite decr_digits_cons, E. cbn [bind str_repeat String.length]. destruct borrow.
    + rewrite Hi. destruct i as [|i].
      * eexists _, true. repeat split; [discriminate|]. intros _.
        rewrite <- Ht by auto. f_equal.
        apply digit_at_index in Hi. now rewrite <- Hi.
      * eexists _, false. repeat split; [|discriminate]. intros _.
        apply str_below_head. pose proof (digit_index_lt _ _ Hi).
        rewrite <- (digit_at_index _ _ Hi). apply digit_at_mono; lia.
    + eexists _, false. repeat split; [|discriminate]. intros _.
      now apply str_below_tail, Hf.
Qed.

Lemma ord_chr (n : nat) : n < 256 -> ord (chr n) = n.
Proof. apply nat_ascii_embedding. Qed.

Lemma increment_integer_spec (head : ascii) (digs : string) (n : nat) :
  get_integer_length head = Ok n ->
  all_digits digs = true ->
  exists o,
    increment_integer (String head digs) = Ok o /\
    (forall i, o = Some i -> str_below (String head digs) i) /\
    (o = None -> head = "z"%char /\
                 digs = str_repeat (digit_at (base - 1)) (String.length digs)).
Proof.
  intros Hn D. apply get_integer_length_inv in Hn.
  destruct (incr_digits_spec digs D) as (r & carry & E & Hf & Ht).
  unfold increment_integer. rewrite E. cbn [bind]. destruct carry.
  - destruct (Ascii.eqb_spec head "Z") as [->|NZ].
    { eexists. split; [reflexivity|]. split; [|discriminate]. intros i [= <-].
      apply str_below_head. apply Nat.ltb_lt. reflexivity. }
    destruct (Ascii.eqb_spec head "z") as [->|Nz].
    { eexists. split; [reflexivity|]. split; [discriminate|]. auto. }
    assert (H : head <c chr (ord head + 1)).
    { unfold chr_lt. fold (ord head). fold (ord (chr (ord head + 1))).
      rewrite ord_chr; lia. }
    destruct (ord "a" <? ord (chr (ord head + 1)))%nat;
      eexists; (split; [reflexivity|]); (split; [|discriminate]); intros i [= <-];
      now apply str_below_head.
  - eexists. split; [reflexivity|]. split; [|discriminate]. intros i [= <-].
    now apply str_below_tail, Hf.
Qed.

Lemma decrement_integer_spec (head : ascii) (digs : string) (n : nat) :
  get_integer_length head = Ok n ->
  all_digits digs = true ->
  exists o,
    decrement_integer (String head digs) = Ok o /\
    (forall k, o = Some k -> str_below k (String head digs)) /\
    (o = None -> head = "A"%char /\
                 digs = str_repeat zero (String.length digs)).
Proof.
  intros Hn D. apply get_integer_length_inv in Hn.
  destruct (decr_digits_spec digs D) as (r & borrow & E & Hf & Ht).
  unfold decrement_integer. rewrite E. cbn [bind]. destruct borrow.
  - destruct (Ascii.eqb_spec head "a") as [->|Na].
    { eexists. split; [reflexivity|]. split; [|discriminate]. intros i [= <-].
      apply str_below_head. apply Nat.ltb_lt. reflexivity. }
    destruct (Ascii.eqb_spec head "A") as [->|NA].
    { eexists. split; [reflexivity|]. split; [discriminate|]. auto. }
    assert (H : chr (ord head - 1) <c head).
    { unfold chr_lt. fold (ord head). fold (ord (chr (ord head - 1))).
      rewrite ord_chr; lia. }
    destruct (ord (chr (ord head - 1)) <? ord "Z")%nat;
      eexists; (split; [reflexivity|]); (split; [|discriminate]); intros i [= <-];
      now apply str_below_head.
  - eexists. split; [reflexivity|]. split; [|discriminate]. intros i [= <-].
    now apply str_below_tail, Hf.
Qed.

(** *** Order of the generated key *)

Lemma str_all_at (P : ascii -> Prop) (p : string) (c : ascii) (s : string) :
  str_all P (p ++ String c s) -> P c.
Proof. induction p; simpl; tauto. Qed.

Lemma str_all_repeat (P : ascii -> Prop) (c : ascii) (n : nat) :
  P c -> str_all P (str_repeat c n).
Proof. intros H. induction n; simpl; auto. Qed.

Lemma str_all_digits (s : string) :
  all_digits s = true -> str_all (fun c => ord c <= ord "z") s.
Proof.
  induction s as [|c s IH]; simpl; auto.
  rewrite andb_true_iff. intros [H1 H2]. auto using digit_ord_le.
Qed.

(** Well-formed keys with different integer parts are ordered by them. *)
Lemma int_parts_below (ha hb : ascii) (da db fa fb : string) (na nb : nat) :
  get_integer_length ha = Ok na -> na = S (String.length da) ->
  get_integer_length hb = Ok nb -> nb = S (String.length db) ->
  String ha da <> String hb db ->
  String ha (da ++ fa) <s String hb (db ++ fb) ->
  str_below (String ha da) (String hb db).
Proof.
  intros Ha La Hb Lb N L. apply str_lt_cons in L. destruct L as [L|[-> L]].
  - now apply str_below_head.
  - apply str_below_tail. apply str_below_of_lt with (u := fa) (v := fb); auto.
    + rewrite Ha in Hb. injection Hb as <-. lia.
    + congruence.
Qed.

Lemma between_both (a b : string) :
  valid_key a -> valid_key b -> a <s b ->
  exists k, generate_key_between (Some a) (Some b) = Ok k /\ a <s k /\ k <s b.
Proof.
  intros Va Vb L.
  destruct (valid_key_split a Va)
    as (ha & da & fa & na & Ea & Hna & Lna & Ia & Fa & Dda & Dfa & Za & Nsa).
  destruct (valid_key_split b Vb)
    as (hb & db & fb & nb & Eb & Hnb & Lnb & Ib & Fb & Ddb & Dfb & Zb & Nsb).
  unfold generate_key_between, check_order, check_key.
  rewrite (proj2 (ltb_lt a b) L). cbn [bind].
  unfold valid_key in Va, Vb. rewrite Va, Vb. cbn [bind].
  rewrite Ia, Ib. cbn [bind]. rewrite Fa, Fb.
  assert (Ea' : a = String ha da ++ fa) by exact Ea.
  assert (Eb' : b = String hb db ++ fb) by exact Eb.
  destruct (String.eqb_spec (String ha da) (String hb db)) as [E|N].
  - assert (Lf : fa <s fb).
    { rewrite Ea', Eb', E in L. now apply str_lt_app_l in L. }
    destruct (midpoint_spec fb fa Dfa Dfb Zb Lf) as (m & -> & L1 & L2 & _).
    cbn [bind]. eexists. split; [reflexivity|].
    split.
    + rewrite Ea'. now apply str_lt_app_l.
    + rewrite Eb', E. now apply str_lt_app_l.
  - assert (B : str_below (String ha da) (String hb db)).
    { rewrite Ea, Eb in L. eapply int_parts_below; eauto. }
    destruct (increment_integer_spec ha da na Hna Dda) as (o & -> & Hs & Hnone).
    cbn [bind]. destruct o as [i|].
    + assert (Li : a <s i).
      { rewrite Ea', <- (app_nil_r_str i). apply str_below_app. now apply Hs. }
      destruct (i <? b) eqn:Lt.
      * eexists. split; [reflexivity|]. split; auto. now apply ltb_lt.
      * destruct (midpoint_open_spec fa Dfa) as (m & -> & Lm & _).
        cbn [bind]. eexists. split; [reflexivity|]. split.
        -- rewrite Ea'. now apply str_lt_app_l.
        -- rewrite Eb'. now apply str_below_app.
    + exfalso. destruct (Hnone eq_refl) as [-> Hd].
      destruct B as (p & c & d & s' & t' & E1 & E2 & Lcd).
      assert (Hc : c = "z"%char).
      { apply (str_all_at (fun c => c = "z"%char) p c s'). rewrite <- E1, Hd.
        split; auto. now apply str_all_repeat. }
      assert (Hdz : ord d <= ord "z").
      { apply (str_all_at (fun c => ord c <= ord "z") p d t'). rewrite <- E2.
        split; [|now apply str_all_digits].
        apply get_integer_length_inv in Hnb.
        change (ord "z") with 122. lia. }
      subst c. unfold chr_lt in Lcd. unfold ord in Hdz. lia.
Qed.

Lemma between_open_above (a : string) :
  valid_key a ->
  exists k, generate_key_between (Some a) None = Ok k /\ a <s k.
Proof.
  intros Va.
  destruct (valid_key_split a Va)
    as (ha & da & fa & na & Ea & Hna & Lna & Ia & Fa & Dda & Dfa & Za & Nsa).
  unfold generate_key_between, check_order, check_key.
  unfold valid_key in Va. rewrite Va. cbn [bind].
  rewrite Ia. cbn [bind]. rewrite Fa.
  assert (Ea' : a = String ha da ++ fa) by exact Ea.
  destruct (increment_integer_spec ha da na Hna Dda) as (o & -> & Hs & _).
  cbn [bind]. destruct o as [i|].
  - eexists. split; [reflexivity|].
    rewrite Ea', <- (app_nil_r_str i). apply str_below_app. now apply Hs.
  - destruct (midpoint_open_spec fa Dfa) as (m & -> & Lm & _).
    cbn [bind]. eexists. split; [reflexivity|].
    rewrite Ea'. now apply str_lt_app_l.
Qed.

Lemma between_open_below (b : string) :
  valid_key b ->
  exists k, generate_key_between None (Some b) = Ok k /\ k <s b.
Proof.
  intros Vb.
  destruct (valid_key_split b Vb)
    as (hb & db & fb & nb & Eb & Hnb & Lnb & Ib & Fb & Ddb & Dfb & Zb & Nsb).
  unfold generate_key_between, check_order, check_key.
  unfold valid_key in Vb. rewrite Vb. cbn [bind].
  rewrite Ib. cbn [bind]. rewrite Fb.
  assert (Eb' : b = String hb db ++ fb) by exact Eb.
  destruct (String.eqb_spec (String hb db) smallest_integer) as [E|N].
  - assert (Lf : "" <s fb).
    { destruct fb; [|apply str_lt_nil_l].
      rewrite app_nil_r_str in Eb. congruence. }
    destruct (midpoint_spec fb "" eq_refl Dfb Zb Lf) as (m & -> & L1 & L2 & _).
    cbn [bind]. eexists. split; [reflexivity|].
    rewrite Eb'. now apply str_lt_app_l.
  - destruct (String hb db <? b) eqn:Lt.
    + eexists. split; [reflexivity|]. now apply ltb_lt.
    + assert (Hf : fb = "").
      { destruct fb as [|c fb]; auto. exfalso.
        assert (H : String hb db <s b).
        { rewrite Eb'. now apply str_lt_app_nonempty. }
        apply ltb_lt in H. congruence. }
      clear Fb Eb'. subst fb. rewrite app_nil_r_str in Eb.
      destruct (decrement_integer_spec hb db nb Hnb Ddb) as (o & -> & Hs & Hnone).
      cbn [bind]. destruct o as [k|].
      * eexists. split; [reflexivity|].
        rewrite Eb. now apply str_below_lt, Hs.
      * exfalso. destruct (Hnone eq_refl) as [-> Hd].
        apply get_integer_length_inv in Hnb.
        change (ord "A") with 65 in Hnb.
        assert (Hl : String.length db = 26) by lia.
        apply N. rewrite Hd, Hl. reflexivity.
Qed.

(** [generate_key_between] returns a key when its bounds are well-formed
    keys in strict order, and the key lies strictly between the bounds that
    are present. *)
Lemma generate_key_between_ordered (a b : option string) :
  (forall x, a = Some x -> valid_key x) ->
  (forall y, b = Some y -> valid_key y) ->
  (forall x y, a = Some x -> b = Some y -> x <s y) ->
  exists k, generate_key_between a b = Ok k /\
            (forall x, a = Some x -> x <s k) /\
            (forall y, b = Some y -> k <s y).
Proof.
  intros Va Vb L. destruct a as [a|], b as [b|].
  - destruct (between_both a b) as (k & E & L1 & L2); auto.
    exists k. repeat split; auto; now intros ? [= <-].
  - destruct (between_open_above a) as (k & E & L1); auto.
    exists k. repeat split; auto; [now intros ? [= <-]|discriminate].
  - destruct (between_open_below b) as (k & E & L1); auto.
    exists k. repeat split; auto; [discriminate|now intros ? [= <-]].
  - exists "a0". repeat split; auto; discriminate.
Qed.

(** What a successful call says about its arguments. *)
Lemma generate_key_between_ok_inv (a b : option string) (k : string) :
  generate_key_between a b = Ok k ->
  (forall x, a = Some x -> valid_key x) /\
  (forall y, b = Some y -> valid_key y) /\
  (forall x y, a = Some x -> b = Some y -> x <s y).
Proof.
  unfold generate_key_between.
  destruct (check_order a b) as [[]|] eqn:Co; [|discriminate].
  destruct (check_key a) as [[]|] eqn:Ca; [|discriminate].
  destruct (check_key b) as [[]|] eqn:Cb; [|discriminate].
  intros _. repeat split.
  - intros x ->. exact Ca.
  - intros y ->. exact Cb.
  - intros x y -> ->. simpl in Co.
    destruct (x <? y) eqn:E; [now apply ltb_lt|discriminate].
Qed.

End KeyGenFacts.

(** ** The managed list *)

Module ManagedListFacts.

Import ManagedList.

Lemma str_le_refl (s : string) : str_le s s.
Proof. now right. Qed.

Lemma str_le_trans (s t u : string) : str_le s t -> str_le t u -> str_le s u.
Proof.
  intros [H1| ->] [H2| ->]; unfold str_le; eauto using str_lt_trans.
Qed.

Lemma str_le_lt_trans (s t u : string) : str_le s t -> t <s u -> s <s u.
Proof. intros [H1| ->] H2; eauto using str_lt_trans. Qed.

Lemma str_lt_le_trans (s t u : string) : s <s t -> str_le t u -> s <s u.
Proof. intros H1 [H2| <-]; eauto using str_lt_trans. Qed.

Lemma str_lt_asym (s t : string) : s <s t -> ~ t <s s.
Proof. intros H1 H2. apply (str_lt_irrefl s). eauto using str_lt_trans. Qed.

Lemma not_lt_le (s t : string) : ~ s <s t -> str_le t s.
Proof.
  intros H. destruct (str_trichotomy s t) as [L|[->|L]]; [tauto|now right|now left].
Qed.

Lemma ltb_false (s t : string) : (s <? t) = false <-> ~ s <s t.
Proof. rewrite <- ltb_lt. destruct (s <? t); split; congruence. Qed.

(** *** [add] keeps the list sorted and only inserts *)

Lemma add_split (v : string) (l : list string) :
  exists l1 l2, l = (l1 ++ l2)%list /\ add v l = (l1 ++ v :: l2)%list /\
                Forall (fun k => str_le k v) l1 /\
                (forall k l2', l2 = k :: l2' -> v <s k).
Proof.
  induction l as [|k l IH]; simpl.
  - exists [], []. repeat split; auto. discriminate.
  - destruct (v <? k) eqn:E.
    + exists [], (k :: l). repeat split; auto.
      intros k' l2' [= <- <-]. now apply ltb_lt.
    + destruct IH as (l1 & l2 & -> & -> & F & H).
      exists (k :: l1), l2. repeat split; auto.
      constructor; auto. now apply not_lt_le, ltb_false.
Qed.

Lemma add_length (v : string) (l : list string) :
  List.length (add v l) = S (List.length l).
Proof.
  destruct (add_split v l) as (l1 & l2 & -> & -> & _).
  rewrite !length_app. simpl. lia.
Qed.

Lemma add_perm (v : string) (l : list string) : Permutation (v :: l) (add v l).
Proof.
  destruct (add_split v l) as (l1 & l2 & -> & -> & _).
  apply Permutation_middle.
Qed.

Lemma add_in (v k : string) (l : list string) : In k (add v l) <-> k = v \/ In k l.
Proof.
  split; intros H.
  - apply (Permutation_in _ (Permutation_sym (add_perm v l))) in H.
    destruct H; auto.
  - apply (Permutation_in _ (add_perm v l)). destruct H; [left|right]; auto.
Qed.

Lemma add_sorted (v : string) (l : list string) :
  StronglySorted str_le l -> StronglySorted str_le (add v l).
Proof.
  induction l as [|k l IH]; simpl; intros S.
  - repeat constructor.
  - inversion S as [|? ? S' F]; subst.
    destruct (v <? k) eqn:E.
    + apply ltb_lt in E. constructor; auto.
      constructor; [now left|].
      eapply Forall_impl; [|exact F]. intros x Hx.
      left. eapply str_lt_le_trans; eauto.
    + apply ltb_false, not_lt_le in E. constructor; auto.
      apply Forall_forall. intros x Hx. apply add_in in Hx.
      destruct Hx as [->|Hx]; auto.
      rewrite Forall_forall in F. auto.
Qed.

Lemma add_strictly_sorted (v : string) (l : list string) :
  StronglySorted str_lt l -> ~ In v l -> StronglySorted str_lt (add v l).
Proof.
  induction l as [|k l IH]; simpl; intros S N.
  - repeat constructor.
  - inversion S as [|? ? S' F]; subst.
    destruct (v <? k) eqn:E.
    + apply ltb_lt in E. constructor; auto.
      constructor; auto.
      eapply Forall_impl; [|exact F]. intros x Hx. eauto using str_lt_trans.
    + apply ltb_false, not_lt_le in E.
      assert (Hkv : k <s v) by (destruct E as [E|E]; [auto|exfalso; auto]).
      constructor; [apply IH; auto|].
      apply Forall_forall. intros x Hx. apply add_in in Hx.
      destruct Hx as [->|Hx]; auto.
      rewrite Forall_forall in F. auto.
Qed.

Lemma strictly_sorted_le (l : list string) :
  StronglySorted str_lt l -> StronglySorted str_le l.
Proof.
  induction 1; constructor; auto.
  eapply Forall_impl; [|eassumption]. intros x Hx. now left.
Qed.

Lemma ManagedListAccessor_sorted (keys : list string) :
  StronglySorted str_le (ManagedListAccessor keys).
Proof.
  unfold ManagedListAccessor.
  assert (G : forall acc, StronglySorted str_le acc ->
              StronglySorted str_le (fold_left (fun l v => add v l) keys acc)).
  { induction keys as [|k keys IH]; simpl; auto using add_sorted. }
  apply G. constructor.
Qed.

Lemma ManagedListAccessor_perm (keys : list string) :
  Permutation keys (ManagedListAccessor keys).
Proof.
  unfold ManagedListAccessor.
  assert (G : forall acc, Permutation (acc ++ keys)%list
                            (fold_left (fun l v => add v l) keys acc)).
  { induction keys as [|k keys IH]; simpl; intros acc.
    - now rewrite app_nil_r.
    - eapply Permutation_trans; [|apply IH].
      eapply Permutation_trans; [apply Permutation_sym, Permutation_middle|].
      apply (Permutation_app_tail keys (add_perm k acc)). }
  apply (G []).
Qed.

(** *** Bisection on a sorted list *)

Lemma bisect_left_split (l : list string) (x : string) :
  StronglySorted str_le l ->
  exists l1 l2, l = (l1 ++ l2)%list /\
                Forall (fun k => k <s x) l1 /\
                Forall (fun k => ~ k <s x) l2 /\
                bisect_left l (Some x) = Ok (List.length l1).
Proof.
  induction l as [|k l IH]; intros S.
  - exists [], []. repeat split; auto.
  - inversion S as [|? ? S' F]; subst. simpl.
    destruct (k <? x) eqn:E.
    + destruct (IH S') as (l1 & l2 & -> & F1 & F2 & ->).
      exists (k :: l1), l2. repeat split; auto.
      constructor; auto. now apply ltb_lt.
    + exists [], (k :: l). repeat split; auto.
      apply ltb_false in E. constructor; auto.
      eapply Forall_impl; [|exact F]. intros e He Hx.
      apply E. eapply str_le_lt_trans; eauto.
Qed.

Lemma bisect_right_split (l : list string) (x : string) :
  StronglySorted str_le l ->
  exists l1 l2, l = (l1 ++ l2)%list /\
                Forall (fun k => ~ x <s k) l1 /\
                Forall (fun k => x <s k) l2 /\
                bisect_right l (Some x) = Ok (List.length l1).
Proof.
  induction l as [|k l IH]; intros S.
  - exists [], []. repeat split; auto.
  - inversion S as [|? ? S' F]; subst. simpl.
    destruct (x <? k) eqn:E.
    + exists [], (k :: l). repeat split; auto.
      apply ltb_lt in E. constructor; auto.
      eapply Forall_impl; [|exact F]. intros e He.
      eapply str_lt_le_trans; eauto.
    + destruct (IH S') as (l1 & l2 & -> & F1 & F2 & ->).
      exists (k :: l1), l2. repeat split; auto.
      constructor; auto. now apply ltb_false.
Qed.

Lemma getitem_app (l1 l2 : list string) (k : string) :
  getitem (l1 ++ k :: l2) (List.length l1) = Ok k.
Proof.
  unfold getitem. rewrite nth_error_app2, Nat.sub_diag by lia. reflexivity.
Qed.

Lemma sorted_app_l (R : string -> string -> Prop) (l1 l2 : list string) (x : string) :
  StronglySorted R (l1 ++ x :: l2) -> Forall (fun k => R k x) l1.
Proof.
  induction l1 as [|k l1 IH]; simpl; intros S; constructor;
    inversion S as [|? ? S' F]; subst; auto.
  rewrite Forall_forall in F. apply F, in_elt.
Qed.

Lemma sorted_app_r (R : string -> string -> Prop) (l1 l2 : list string) :
  StronglySorted R (l1 ++ l2) -> StronglySorted R l2.
Proof.
  induction l1 as [|k l1 IH]; simpl; auto.
  intros S. inversion S; auto.
Qed.

Lemma exists_last_or_nil (l : list string) :
  l = [] \/ exists l' a, l = (l' ++ [a])%list.
Proof.
  induction l as [|x l IH] using rev_ind; [left|right]; eauto.
Qed.

(** *** The four read operations on a sorted list *)

Lemma before_spec (l : list string) (x : string) :
  StronglySorted str_le l ->
  exists r, before l (Some x) = Ok r /\ greatest_below l x r.
Proof.
  intros S. destruct (bisect_left_split l x S) as (l1 & l2 & -> & F1 & F2 & E).
  unfold before. rewrite E. cbn [bind].
  destruct (exists_last_or_nil l1) as [->|(l1' & p & ->)].
  - exists None. split; auto. simpl. intros k Hk. rewrite Forall_forall in F2. auto.
  - rewrite length_app, Nat.add_comm. cbn [List.length Nat.add].
    rewrite <- app_assoc. cbn [app]. rewrite getitem_app. cbn [bind].
    exists (Some p). split; auto. simpl.
    rewrite <- app_assoc in S. cbn [app] in S.
    rewrite Forall_forall in F1, F2.
    repeat split.
    + apply in_elt.
    + apply F1, in_elt.
    + intros k Hk Lk. apply in_app_or in Hk. destruct Hk as [Hk|[->|Hk]].
      * apply sorted_app_l in S. rewrite Forall_forall in S. auto.
      * apply str_le_refl.
      * exfalso. apply (F2 k); auto.
Qed.

Lemma after_spec (l : list string) (x : string) :
  StronglySorted str_le l ->
  exists r, after l (Some x) = Ok r /\ least_above l x r.
Proof.
  intros S. destruct (bisect_right_split l x S) as (l1 & l2 & -> & F1 & F2 & E).
  unfold after. rewrite E. cbn [bind]. rewrite length_app.
  rewrite Forall_forall in F1, F2.
  destruct l2 as [|h l2].
  - replace (List.length l1 <? List.length l1 + List.length (@nil string))%nat
      with false by (symmetry; apply Nat.ltb_ge; simpl; lia).
    exists None. split; auto. simpl. intros k Hk.
    rewrite app_nil_r in Hk. auto.
  - replace (List.length l1 <? List.length l1 + List.length (h :: l2))%nat
      with true by (symmetry; apply Nat.ltb_lt; simpl; lia).
    rewrite getitem_app. cbn [bind].
    exists (Some h). split; auto. simpl. repeat split.
    + apply in_elt.
    + apply F2. now left.
    + intros k Hk Lk. apply in_app_or in Hk. destruct Hk as [Hk|[->|Hk]].
      * exfalso. apply (F1 k); auto.
      * apply str_le_refl.
      * apply sorted_app_r in S. inversion S as [|? ? _ F]; subst.
        rewrite Forall_forall in F. auto.
Qed.

Lemma first_spec (l : list string) :
  StronglySorted str_le l ->
  exists r, first l = Ok r /\ smallest_of l r.
Proof.
  intros S. destruct l as [|m l].
  - exists None. split; reflexivity.
  - exists (Some m). split; [reflexivity|]. simpl. split; auto.
    inversion S as [|? ? _ F]; subst. rewrite Forall_forall in F.
    intros k [->|Hk]; [apply str_le_refl|auto].
Qed.

Lemma last_spec (l : list string) :
  StronglySorted str_le l ->
  exists r, last l = Ok r /\ largest_of l r.
Proof.
  intros S. destruct (exists_last_or_nil l) as [->|(l' & m & ->)].
  - exists None. split; reflexivity.
  - exists (Some m). split.
    + unfold last. destruct (l' ++ [m])%list eqn:E.
      * now destruct l'.
      * rewrite <- E. rewrite length_app, Nat.add_comm. cbn [List.length Nat.add Nat.sub].
        rewrite Nat.sub_0_r, getitem_app. reflexivity.
    + simpl. split; [apply in_elt|].
      intros k Hk. apply in_app_or in Hk. destruct Hk as [Hk|[->|[]]].
      * apply sorted_app_l in S. rewrite Forall_forall in S. auto.
      * apply str_le_refl.
Qed.

(** *** The read operations never raise on a string *)

Lemma bisect_left_total (l : list string) (x : string) :
  exists n, bisect_left l (Some x) = Ok n /\ n <= List.length l.
Proof.
  induction l as [|k l (n & E & Hn)]; simpl.
  - exists 0. auto.
  - destruct (k <? x).
    + rewrite E. exists (S n). split; auto. lia.
    + exists 0. split; auto. lia.
Qed.

Lemma bisect_right_total (l : list string) (x : string) :
  exists n, bisect_right l (Some x) = Ok n /\ n <= List.length l.
Proof.
  induction l as [|k l (n & E & Hn)]; simpl.
  - exists 0. auto.
  - destruct (x <? k).
    + exists 0. split; auto. lia.
    + rewrite E. exists (S n). split; auto. lia.
Qed.

Lemma getitem_total (l : list string) (i : nat) :
  i < List.length l -> exists k, getitem l i = Ok k.
Proof.
  intros H. unfold getitem. destruct (nth_error l i) eqn:E; eauto.
  apply nth_error_None in E. lia.
Qed.

Lemma accessor_total (l : list string) (x : string) :
  (exists r, first l = Ok r) /\ (exists r, last l = Ok r) /\
  (exists r, before l (Some x) = Ok r) /\ (exists r, after l (Some x) = Ok r).
Proof.
  repeat split.
  - destruct l; simpl; eauto.
  - unfold last. destruct l as [|k l]; eauto.
    destruct (getitem_total (k :: l) (List.length (k :: l) - 1)) as [m ->];
      [simpl; lia|]. simpl. eauto.
  - unfold before. destruct (bisect_left_total l x) as (n & -> & Hn). cbn [bind].
    destruct n as [|i]; eauto.
    destruct (getitem_total l i) as [m ->]; [lia|]. simpl. eauto.
  - unfold after. destruct (bisect_right_total l x) as (n & -> & Hn). cbn [bind].
    destruct (Nat.ltb_spec n (List.length l)); eauto.
    destruct (getitem_total l n) as [m ->]; [lia|]. simpl. eauto.
Qed.

End ManagedListFacts.

(** ** The Indexer *)

Lemma validate_order_key_cases (key : string) :
  KeyGen.validate_order_key key = Ok tt \/
  KeyGen.validate_order_key key = Raise InvalidKey.
Proof.
  unfold KeyGen.validate_order_key.
  destruct (key =? KeyGen.smallest_integer); auto.
  unfold KeyGen.get_integer_part. destruct key as [|h rest]; auto.
  unfold KeyGen.get_integer_length.
  repeat match goal with
         | |- context [if ?c then _ else _] => destruct c; cbn [bind]; auto
         end.
Qed.

Lemma generate_key_between_bounds (a b : option string) (k : string) :
  KeyGen.generate_key_between a b = Ok k ->
  (forall x, a = Some x -> x <s k) /\ (forall y, b = Some y -> k <s y).
Proof.
  intros H.
  destruct (KeyGenFacts.generate_key_between_ok_inv a b k H) as (Va & Vb & L).
  destruct (KeyGenFacts.generate_key_between_ordered a b Va Vb L) as (k' & E & B).
  rewrite H in E. injection E as <-. exact B.
Qed.

Lemma insert_mapped_bounds {Name : Type} (items : Accessor Name)
    (name_to_key : option Name -> res (option string))
    (after_ before_ : option Name) :
  Indexer.insert items name_to_key after_ before_ =
  ('(lo, hi) <- Indexer.mapped_bounds items name_to_key after_ before_ ;;
   KeyGen.generate_key_between lo hi).
Proof.
  unfold Indexer.insert, Indexer.mapped_bounds.
  destruct (Indexer.resolve items after_ before_) as [[a b]|e]; cbn [bind]; auto.
  destruct (name_to_key a); cbn [bind]; auto.
  destruct (name_to_key b); cbn [bind]; auto.
Qed.

(** C1.  Key generation returns a key for well-formed bounds in strict order
    (or with a bound absent); every key it returns, and so every key a
    successful [Indexer.insert] returns, is strictly above the lower bound
    when there is one and strictly below the upper bound when there is one,
    in the lexicographic order of strings. *)
Theorem generated_key_between_bounds :
  (forall a b : option string,
     (forall x, a = Some x -> KeyGen.valid_key x) ->
     (forall y, b = Some y -> KeyGen.valid_key y) ->
     (forall x y, a = Some x -> b = Some y -> x <s y) ->
     exists k, KeyGen.generate_key_between a b = Ok k /\
               (forall x, a = Some x -> x <s k) /\
               (forall y, b = Some y -> k <s y)) /\
  (forall (a b : option string) (k : string),
     KeyGen.generate_key_between a b = Ok k ->
     (forall x, a = Some x -> x <s k) /\ (forall y, b = Some y -> k <s y)) /\
  (forall (Name : Type) (items : Accessor Name)
          (name_to_key : option Name -> res (option string))
          (after_ before_ : option Name) (k : string),
     Indexer.insert items name_to_key after_ before_ = Ok k ->
     exists lo hi,
       Indexer.mapped_bounds items name_to_key after_ before_ = Ok (lo, hi) /\
       (forall x, lo = Some x -> x <s k) /\ (forall y, hi = Some y -> k <s y)).
Proof.
  split; [exact KeyGenFacts.generate_key_between_ordered|].
  split; [exact generate_key_between_bounds|].
  intros Name items name_to_key after_ before_ k H.
  rewrite insert_mapped_bounds in H.
  destruct (Indexer.mapped_bounds items name_to_key after_ before_)
    as [[lo hi]|e]; [|discriminate].
  cbn [bind] in H. exists lo, hi. split; auto.
  now apply generate_key_between_bounds.
Qed.

Lemma generated_key_between_bounds_witness :
  (exists k, KeyGen.generate_key_between (Some "a5") (Some "a9") = Ok k /\
             (forall x, Some "a5" = Some x -> x <s k) /\
             (forall y, Some "a9" = Some y -> k <s y)) /\
  ("a0" <s "a0V" /\ "a0V" <s "a1") /\
  (exists lo hi,
     Indexer.mapped_bounds (ManagedList.accessor ["a0"; "a1"]) Indexer.identity
       (Some "a0") None = Ok (lo, hi) /\
     (forall x, lo = Some x -> x <s "a0V") /\
     (forall y, hi = Some y -> "a0V" <s y)).
Proof.
  destruct generated_key_between_bounds as (T1 & T2 & T3).
  split; [|split].
  - apply T1.
    + intros x [= <-]. reflexivity.
    + intros y [= <-]. reflexivity.
    + intros x y [= <-] [= <-]. reflexivity.
  - destruct (T2 (Some "a0") (Some "a1") "a0V") as [L U]; [reflexivity|].
    split; [now apply L|now apply U].
  - apply T3. reflexivity.
Defined.

(** C2.  [Indexer.insert] resolves its arguments by the four cases: with
    neither given, [after] becomes [last()] (both stay absent on an empty
    collection); with only [before] given, [after] becomes
    [before(before)]; with only [after] given, [before] becomes
    [after(after)]; with both given they are used as they are and the
    accessor is not consulted.  The result is key generation on the mapped
    bounds; an exception of the accessor goes to the caller. *)
Theorem insert_resolution {Name : Type} (items : Accessor Name)
    (name_to_key : option Name -> res (option string)) :
  let between (a b : option Name) :=
    lo <- name_to_key a ;; hi <- name_to_key b ;;
    KeyGen.generate_key_between lo hi in
  (forall a', last items = Ok a' ->
     Indexer.resolve items None None = Ok (a', None) /\
     Indexer.insert items name_to_key None None = between a' None) /\
  (last items = Ok None ->
     Indexer.resolve items None None = Ok (None, None) /\
     Indexer.insert items name_to_key None None = between None None) /\
  (forall b a', before items b = Ok a' ->
     Indexer.resolve items None (Some b) = Ok (a', Some b) /\
     Indexer.insert items name_to_key None (Some b) = between a' (Some b)) /\
  (forall a b', after items a = Ok b' ->
     Indexer.resolve items (Some a) None = Ok (Some a, b') /\
     Indexer.insert items name_to_key (Some a) None = between (Some a) b') /\
  (forall a b,
     Indexer.resolve items (Some a) (Some b) = Ok (Some a, Some b) /\
     Indexer.insert items name_to_key (Some a) (Some b) = between (Some a) (Some b)) /\
  (forall e, last items = Raise e ->
     Indexer.insert items name_to_key None None = Raise e) /\
  (forall b e, before items b = Raise e ->
     Indexer.insert items name_to_key None (Some b) = Raise e) /\
  (forall a e, after items a = Raise e ->
     Indexer.insert items name_to_key (Some a) None = Raise e).
Proof.
  intros between. unfold between, Indexer.insert, Indexer.resolve.
  repeat split; intros; try rewrite H; reflexivity.
Qed.

Lemma insert_resolution_witness :
  Indexer.resolve (ManagedList.accessor ["a0"; "a1"]) None (Some "a1")
    = Ok (Some "a0", Some "a1") /\
  Indexer.insert (ManagedList.accessor ["a0"; "a1"]) Indexer.identity None (Some "a1")
    = Ok "a0V".
Proof.
  destruct (insert_resolution (ManagedList.accessor ["a0"; "a1"]) Indexer.identity)
    as (_ & _ & T & _).
  destruct (T "a1" (Some "a0")) as [R I]; [reflexivity|].
  split; [exact R|]. rewrite I. reflexivity.
Defined.

(** C3.  With both bounds present and the lower one not strictly below the
    upper one, key generation raises [InvalidOrder] and returns no key, as
    for between("b", "a"); [Indexer.insert] hands the exception to its
    caller; with the lower bound strictly below the upper one, no
    [InvalidOrder] is raised. *)
Theorem invalid_order_is_raised :
  (forall a b : string,
     ~ a <s b ->
     KeyGen.generate_key_between (Some a) (Some b) = Raise InvalidOrder) /\
  KeyGen.generate_key_between (Some "b") (Some "a") = Raise InvalidOrder /\
  (forall (Name : Type) (items : Accessor Name)
          (name_to_key : option Name -> res (option string))
          (after_ before_ : option Name) (lo hi : string),
     Indexer.mapped_bounds items name_to_key after_ before_ = Ok (Some lo, Some hi) ->
     ~ lo <s hi ->
     Indexer.insert items name_to_key after_ before_ = Raise InvalidOrder) /\
  (forall a b : string,
     a <s b ->
     KeyGen.generate_key_between (Some a) (Some b) <> Raise InvalidOrder) /\
  (forall a : string,
     KeyGen.generate_key_between (Some a) None <> Raise InvalidOrder /\
     KeyGen.generate_key_between None (Some a) <> Raise InvalidOrder) /\
  KeyGen.generate_key_between None None <> Raise InvalidOrder.
Proof.
  assert (R : forall a b : string, ~ a <s b ->
            KeyGen.generate_key_between (Some a) (Some b) = Raise InvalidOrder).
  { intros a b N. unfold KeyGen.generate_key_between, KeyGen.check_order.
    apply ManagedListFacts.ltb_false in N. now rewrite N. }
  split; [exact R|]. split; [reflexivity|]. split; [|split; [|split]].
  - intros Name items name_to_key after_ before_ lo hi M N.
    rewrite insert_mapped_bounds, M. cbn [bind]. now apply R.
  - intros a b L.
    destruct (validate_order_key_cases a) as [Va|Ea].
    + destruct (validate_order_key_cases b) as [Vb|Eb].
      * destruct (KeyGenFacts.between_both a b Va Vb L) as (k & -> & _).
        discriminate.
      * unfold KeyGen.generate_key_between, KeyGen.check_order, KeyGen.check_key.
        apply ltb_lt in L. rewrite L, Va, Eb. discriminate.
    + unfold KeyGen.generate_key_between, KeyGen.check_order, KeyGen.check_key.
      apply ltb_lt in L. rewrite L, Ea. discriminate.
  - intros a. destruct (validate_order_key_cases a) as [Va|Ea].
    + destruct (KeyGenFacts.between_open_above a Va) as (k & -> & _).
      destruct (KeyGenFacts.between_open_below a Va) as (k' & -> & _).
      split; discriminate.
    + unfold KeyGen.generate_key_between, KeyGen.check_order, KeyGen.check_key.
      rewrite Ea. split; discriminate.
  - discriminate.
Qed.

Lemma invalid_order_is_raised_witness :
  KeyGen.generate_key_between (Some "a1") (Some "a1") = Raise InvalidOrder /\
  Indexer.insert (ManagedList.accessor ["a0"; "a1"]) Indexer.identity
    (Some "a1") (Some "a0") = Raise InvalidOrder /\
  KeyGen.generate_key_between (Some "a0") (Some "a1") <> Raise InvalidOrder.
Proof.
  destruct invalid_order_is_raised as (T1 & _ & T3 & T4 & _).
  split; [|split].
  - apply T1. discriminate.
  - apply (T3 _ _ _ _ _ "a1" "a0"); [reflexivity|discriminate].
  - apply T4. reflexivity.
Defined.

Lemma integer_heads_spec (c : ascii) :
  KeyGen.index_of c integer_heads <> None <->
  exists n, KeyGen.get_integer_length c = Ok n.
Proof.
  destruct c as [[] [] [] [] [] [] [] []]; vm_compute;
    (split; [intros H; try (exfalso; apply H; reflexivity); eexists; reflexivity
            |intros [n H]; discriminate]).
Qed.

(** C4.  On an empty collection, [insert()] without arguments succeeds and
    returns the starting key ["a0"], whose first character is the middle
    symbol of the heads of integer parts; the result is the same at every
    such call.  This holds for the default mapping and for every mapping that
    sends an absent name to an absent key. *)
Theorem insert_on_empty_collection :
  (forall items : Accessor string,
     last items = Ok None ->
     Indexer.insert items Indexer.identity None None = Ok "a0") /\
  (forall (Name : Type) (items : Accessor Name)
          (name_to_key : option Name -> res (option string)),
     last items = Ok None ->
     name_to_key None = Ok None ->
     Indexer.insert items name_to_key None None = Ok "a0") /\
  ManagedList.insert (ManagedList.ManagedListIndexer []) None None
    = Ok ("a0", ["a0"]) /\
  (forall name_to_key : option string -> res (option string),
     name_to_key None = Ok None ->
     Indexer.insert (Files.FileAccessor [] name_to_key) name_to_key None None
       = Ok "a0") /\
  String.get 0 "a0" = String.get (String.length integer_heads / 2) integer_heads.
Proof.
  assert (G : forall (Name : Type) (items : Accessor Name)
                (name_to_key : option Name -> res (option string)),
             last items = Ok None -> name_to_key None = Ok None ->
             Indexer.insert items name_to_key None None = Ok "a0").
  { intros Name items name_to_key L M.
    unfold Indexer.insert, Indexer.resolve. rewrite L. cbn [bind].
    rewrite M. reflexivity. }
  repeat split; auto.
Qed.

Lemma insert_on_empty_collection_witness :
  Indexer.insert (ManagedList.accessor []) Indexer.identity None None = Ok "a0" /\
  Indexer.insert (Files.FileAccessor [] Files.get_key_from_name)
    Files.get_key_from_name None None = Ok "a0".
Proof.
  destruct insert_on_empty_collection as (T1 & _ & _ & T4 & _).
  split.
  - apply T1. reflexivity.
  - apply T4. reflexivity.
Defined.

(** ** The directory of files *)

Section FileFacts.

Variable dir : list string.
Variable name_to_key : option string -> res (option string).

(** The mapping raises for no name. *)
Hypothesis mapping_total : forall n, exists k, name_to_key n = Ok k.

Lemma key_names_loop_total (names : list string) :
  forall retval, exists d, Files.key_names_loop name_to_key names retval = Ok d.
Proof.
  induction names as [|n names IH]; intros retval; simpl; eauto.
  destruct (mapping_total (Some n)) as [[k|] ->]; cbn [bind]; auto.
Qed.

Lemma dict_get_in (d : list (string * string)) (k : string) :
  In k (map fst d) -> exists n, Files.dict_get d k = Ok n.
Proof.
  induction d as [|[k' n'] d IH]; simpl; [tauto|].
  intros H. destruct (String.eqb_spec k' k) as [->|N]; eauto.
  destruct H as [H|H]; [congruence|auto].
Qed.

Lemma getitem_in (l : list string) (i : nat) (k : string) :
  ManagedList.getitem l i = Ok k -> In k l.
Proof.
  unfold ManagedList.getitem. destruct (nth_error l i) eqn:E; [|discriminate].
  intros [= <-]. eapply nth_error_In; eauto.
Qed.

Lemma managed_reads_in (l : list string) (x : option string) (p : string) :
  (ManagedList.first l = Ok (Some p) -> In p l) /\
  (ManagedList.last l = Ok (Some p) -> In p l) /\
  (ManagedList.before l x = Ok (Some p) -> In p l) /\
  (ManagedList.after l x = Ok (Some p) -> In p l).
Proof.
  repeat split.
  - destruct l; simpl; [discriminate|]. intros [= <-]. now left.
  - unfold ManagedList.last. destruct l as [|k l]; [discriminate|].
    destruct (ManagedList.getitem (k :: l) (List.length (k :: l) - 1)) eqn:E;
      cbn [bind]; [|discriminate].
    intros [= <-]. eapply getitem_in; eauto.
  - unfold ManagedList.before.
    destruct (ManagedList.bisect_left l x) as [[|i]|]; cbn [bind]; try discriminate.
    destruct (ManagedList.getitem l i) eqn:E; cbn [bind]; [|discriminate].
    intros [= <-]. eapply getitem_in; eauto.
  - unfold ManagedList.after.
    destruct (ManagedList.bisect_right l x) as [i|]; cbn [bind]; [|discriminate].
    destruct (i <? List.length l)%nat; [|discriminate].
    destruct (ManagedList.getitem l i) eqn:E; cbn [bind]; [|discriminate].
    intros [= <-]. eapply getitem_in; eauto.
Qed.

Lemma name_of_total (d : list (string * string)) (out_k : option string) :
  Files._key_names dir name_to_key = Ok d ->
  (forall k, out_k = Some k ->
     In k (ManagedList.ManagedListAccessor (map fst d))) ->
  exists r, Files.name_of dir name_to_key out_k = Ok r.
Proof.
  intros D H. destruct out_k as [k|]; simpl; eauto.
  rewrite D. cbn [bind].
  destruct (dict_get_in d k) as [n ->]; [|simpl; eauto].
  eapply Permutation_in; [|apply (H k eq_refl)].
  apply Permutation_sym, ManagedListFacts.ManagedListAccessor_perm.
Qed.

(** [first] and [last] never raise; [before] and [after] do not raise for a
    name that has a key. *)
Lemma file_accessor_total (name key : string) :
  (exists r, Files.first dir name_to_key = Ok r) /\
  (exists r, Files.last dir name_to_key = Ok r) /\
  (name_to_key (Some name) = Ok (Some key) ->
   (exists r, Files.before dir name_to_key name = Ok r) /\
   (exists r, Files.after dir name_to_key name = Ok r)).
Proof.
  destruct (key_names_loop_total dir []) as [d D].
  fold (Files._key_names dir name_to_key) in D.
  set (ks := ManagedList.ManagedListAccessor (map fst d)).
  unfold Files.first, Files.last, Files.before, Files.after, Files._keys.
  rewrite D. cbn [bind]. fold ks.
  destruct (ManagedListFacts.accessor_total ks key) as ([f F] & [e E] & [b B] & [a A]).
  split; [|split].
  - rewrite F. cbn [bind]. apply (name_of_total d); auto.
    intros k ->. now apply (proj1 (managed_reads_in ks None k)).
  - rewrite E. cbn [bind]. apply (name_of_total d); auto.
    intros k ->. now apply (proj1 (proj2 (managed_reads_in ks None k))).
  - intros ->. cbn [bind]. rewrite B, A. cbn [bind].
    split; apply (name_of_total d); auto; intros k ->.
    + now apply (proj1 (proj2 (proj2 (managed_reads_in ks (Some key) k)))).
    + now apply (proj2 (proj2 (proj2 (managed_reads_in ks (Some key) k)))).
Qed.

End FileFacts.

(** C5.  [FileAccessor.after] and [FileAccessor.before] raise for a name
    that [name_to_key] maps to no key as soon as the directory holds an
    entry with a key: the [None] key is compared with the stored keys, and
    [Indexer.insert] hands the [TypeError] on.  [first] and [last] answer. *)
Theorem file_accessor_raises_without_key :
  Files.get_key_from_name (Some "README") = Ok None /\
  Files.after ["a0--a"] Files.get_key_from_name "README" = Raise TypeError /\
  Files.before ["a0--a"] Files.get_key_from_name "README" = Raise TypeError /\
  Indexer.insert (Files.FileAccessor ["a0--a"] Files.get_key_from_name)
    Files.get_key_from_name (Some "README") None = Raise TypeError /\
  Files.first ["a0--a"] Files.get_key_from_name = Ok (Some "a0--a") /\
  Files.last ["a0--a"] Files.get_key_from_name = Ok (Some "a0--a").
Proof. repeat split. Qed.

(** The managed list answers absent exactly beyond its ends. *)
Lemma after_none_iff (l : list string) (x : string) :
  StronglySorted str_le l ->
  ManagedList.after l (Some x) = Ok None <-> (forall k, In k l -> ~ x <s k).
Proof.
  intros S. destruct (ManagedListFacts.after_spec l x S) as (r & E & H).
  rewrite E. destruct r as [p|]; simpl in H.
  - split; [discriminate|]. intros N. destruct H as (I & L & _).
    now apply N in L.
  - tauto.
Qed.

Lemma before_none_iff (l : list string) (x : string) :
  StronglySorted str_le l ->
  ManagedList.before l (Some x) = Ok None <-> (forall k, In k l -> ~ k <s x).
Proof.
  intros S. destruct (ManagedListFacts.before_spec l x S) as (r & E & H).
  rewrite E. destruct r as [p|]; simpl in H.
  - split; [discriminate|]. intros N. destruct H as (I & L & _).
    now apply N in L.
  - tauto.
Qed.

(** C6, as stated, fails on the managed list: ["a1"] is not stored in
    [["a0"; "a2"]], yet the bound derived from it is ["a2"], not absent, and
    the key differs from the one generated without an upper bound. *)
Lemma unresolved_name_counterexample :
  ~ In "a1" ["a0"; "a2"] /\
  ManagedList.after ["a0"; "a2"] (Some "a1") = Ok (Some "a2") /\
  Indexer.mapped_bounds (ManagedList.accessor ["a0"; "a2"]) Indexer.identity
    (Some "a1") None = Ok (Some "a1", Some "a2") /\
  Indexer.insert (ManagedList.accessor ["a0"; "a2"]) Indexer.identity
    (Some "a1") None = Ok "a1V" /\
  KeyGen.generate_key_between (Some "a1") None = Ok "a2".
Proof.
  repeat split. intros [H|[H|[]]]; discriminate.
Qed.

(** C6, amended.  When the accessor answers absent for the neighbour of the
    name that the caller gave, [Indexer.insert] goes on with that bound
    mapped from the absent name, hence absent for a mapping that sends absent
    to absent, and raises nothing of its own.  The managed list answers
    absent only when no stored key lies beyond the name, whether the name is
    stored or not. *)
Theorem absent_neighbour_gives_absent_bound :
  (forall (Name : Type) (items : Accessor Name)
          (name_to_key : option Name -> res (option string)),
     (forall a, after items a = Ok None ->
        Indexer.insert items name_to_key (Some a) None =
        (lo <- name_to_key (Some a) ;; hi <- name_to_key None ;;
         KeyGen.generate_key_between lo hi)) /\
     (forall b, before items b = Ok None ->
        Indexer.insert items name_to_key None (Some b) =
        (lo <- name_to_key None ;; hi <- name_to_key (Some b) ;;
         KeyGen.generate_key_between lo hi)) /\
     (name_to_key None = Ok None ->
        (forall a, after items a = Ok None ->
           Indexer.insert items name_to_key (Some a) None =
           (lo <- name_to_key (Some a) ;; KeyGen.generate_key_between lo None)) /\
        (forall b, before items b = Ok None ->
           Indexer.insert items name_to_key None (Some b) =
           (hi <- name_to_key (Some b) ;; KeyGen.generate_key_between None hi)))) /\
  (forall (l : list string) (x : string),
     StronglySorted str_le l ->
     (ManagedList.after l (Some x) = Ok None <-> (forall k, In k l -> ~ x <s k)) /\
     (ManagedList.before l (Some x) = Ok None <-> (forall k, In k l -> ~ k <s x))).
Proof.
  split.
  - intros Name items name_to_key.
    unfold Indexer.insert, Indexer.resolve.
    split; [|split; [|intros M; split]].
    + intros a ->. reflexivity.
    + intros b ->. reflexivity.
    + intros a ->. cbn [bind]. destruct (name_to_key (Some a)); cbn [bind]; auto.
      now rewrite M.
    + intros b ->. cbn [bind]. now rewrite M.
  - intros l x S. split; [now apply after_none_iff|now apply before_none_iff].
Qed.

Lemma absent_neighbour_gives_absent_bound_witness :
  Indexer.insert (ManagedList.accessor ["a0"; "a2"]) Indexer.identity
    (Some "a3") None = Ok "a4" /\
  (ManagedList.after ["a0"; "a2"] (Some "a3") = Ok None <->
   (forall k, In k ["a0"; "a2"] -> ~ "a3" <s k)).
Proof.
  destruct absent_neighbour_gives_absent_bound as (T1 & T2).
  split.
  - destruct (T1 string (ManagedList.accessor ["a0"; "a2"]) Indexer.identity)
      as (_ & _ & T).
    destruct (T eq_refl) as (Ta & _).
    rewrite (Ta "a3" eq_refl). reflexivity.
  - apply T2. repeat constructor; simpl; auto.
Defined.

(** C7, as stated, fails: on an empty collection both resolved names are
    absent, yet with a mapping that gives a key to [None] both bounds passed
    to key generation are concrete, and the call raises. *)
Lemma absent_name_counterexample :
  Indexer.resolve (ManagedList.accessor []) None None = Ok (None, None) /\
  Indexer.mapped_bounds (ManagedList.accessor []) key_or_a0 None None
    = Ok (Some "a0", Some "a0") /\
  Indexer.insert (ManagedList.accessor []) key_or_a0 None None
    = Raise InvalidOrder.
Proof. repeat split. Qed.

(** C7, amended.  The keys passed to key generation are [name_to_key] of the
    resolved names, also when a resolved name is absent: the lower key is
    absent for an absent [after] whenever the mapping sends absent to absent,
    as the default mapping does, and likewise the upper key. *)
Theorem mapped_bounds_follow_mapping {Name : Type} (items : Accessor Name)
    (name_to_key : option Name -> res (option string))
    (after_ before_ a' b' : option Name) :
  Indexer.resolve items after_ before_ = Ok (a', b') ->
  Indexer.mapped_bounds items name_to_key after_ before_ =
    (lo <- name_to_key a' ;; hi <- name_to_key b' ;; Ok (lo, hi)) /\
  Indexer.insert items name_to_key after_ before_ =
    (lo <- name_to_key a' ;; hi <- name_to_key b' ;;
     KeyGen.generate_key_between lo hi) /\
  (name_to_key None = Ok None ->
   forall lo hi,
     Indexer.mapped_bounds items name_to_key after_ before_ = Ok (lo, hi) ->
     (a' = None -> lo = None) /\ (b' = None -> hi = None)) /\
  Indexer.identity None = Ok None.
Proof.
  intros R. unfold Indexer.mapped_bounds, Indexer.insert. rewrite R. cbn [bind].
  split; [reflexivity|]. split; [reflexivity|]. split; [|reflexivity].
  intros M lo hi E. split; intros ->; rewrite M in E; cbn [bind] in E.
  - destruct (name_to_key b'); cbn [bind] in E; congruence.
  - destruct (name_to_key a'); cbn [bind] in E; congruence.
Qed.

Lemma mapped_bounds_follow_mapping_witness :
  Indexer.mapped_bounds (ManagedList.accessor ["a0"]) Indexer.identity (Some "a0") None
    = Ok (Some "a0", None) /\
  Indexer.insert (ManagedList.accessor ["a0"]) Indexer.identity (Some "a0") None
    = Ok "a1".
Proof.
  destruct (mapped_bounds_follow_mapping (ManagedList.accessor ["a0"])
              Indexer.identity (Some "a0") None (Some "a0") None eq_refl)
    as (M & I & _).
  split; [rewrite M|rewrite I]; reflexivity.
Defined.

(** C8, as stated, fails for a name that is not stored: ["a1"] has no
    position in [["a0"; "a2"]], yet [before] and [after] answer with its
    neighbours by rank instead of absent. *)
Lemma rank_neighbours_counterexample :
  ~ In "a1" ["a0"; "a2"] /\
  ManagedList.before ["a0"; "a2"] (Some "a1") = Ok (Some "a0") /\
  ManagedList.after ["a0"; "a2"] (Some "a1") = Ok (Some "a2").
Proof.
  repeat split. intros [H|[H|[]]]; discriminate.
Qed.

(** C8, amended.  On the managed list, [first()] is the smallest stored key
    and [last()] the largest, absent when the list is empty; for every name,
    stored or not, [before(name)] is the greatest stored key strictly below
    the name, absent when no stored key is below it, and [after(name)] is the
    least stored key strictly above the name, absent when none is above. *)
Theorem managed_list_reads (l : list string) (x : string) :
  StronglySorted str_le l ->
  (exists r, ManagedList.first l = Ok r /\ smallest_of l r) /\
  (exists r, ManagedList.last l = Ok r /\ largest_of l r) /\
  (exists r, ManagedList.before l (Some x) = Ok r /\ greatest_below l x r) /\
  (exists r, ManagedList.after l (Some x) = Ok r /\ least_above l x r).
Proof.
  intros S.
  split; [now apply ManagedListFacts.first_spec|].
  split; [now apply ManagedListFacts.last_spec|].
  split; [now apply ManagedListFacts.before_spec|].
  now apply ManagedListFacts.after_spec.
Qed.

Lemma managed_list_reads_witness :
  StronglySorted str_le ["a0"; "a1"; "a2"] /\
  (exists r, ManagedList.before ["a0"; "a1"; "a2"] (Some "a1") = Ok r /\
             greatest_below ["a0"; "a1"; "a2"] "a1" r).
Proof.
  assert (S : StronglySorted str_le ["a0"; "a1"; "a2"]).
  { repeat constructor; simpl; auto. }
  split; [exact S|].
  apply (managed_list_reads ["a0"; "a1"; "a2"] "a1" S).
Defined.

(** ** Iteration *)

Section Iteration.

Context {Name : Type}.
Variable items : Accessor Name.

Lemma iter_loop_chain (fuel : nat) :
  forall (c : option Name) (ys : list Name),
    Indexer.iter_loop items fuel c = (ys, Indexer.Stop) ->
    Indexer.after_chain items c ys.
Proof.
  induction fuel as [|fuel IH]; intros [c|] ys; simpl;
    try (intros [= <-]; constructor); try discriminate.
  destruct (after items c) as [next|e] eqn:E; [|discriminate].
  destruct (Indexer.iter_loop items fuel next) as [zs e] eqn:L.
  intros [= <- ->]. econstructor; eauto.
Qed.

Lemma chain_iter_loop (c : option Name) (ys : list Name) :
  Indexer.after_chain items c ys ->
  forall fuel, List.length ys <= fuel ->
    Indexer.iter_loop items fuel c = (ys, Indexer.Stop).
Proof.
  induction 1 as [|c next ys E C IH]; intros fuel Hf.
  - destruct fuel; reflexivity.
  - destruct fuel as [|fuel]; simpl in Hf; [lia|].
    simpl. rewrite E, IH by lia. reflexivity.
Qed.

Lemma after_chain_unique (c : option Name) (ys zs : list Name) :
  Indexer.after_chain items c ys -> Indexer.after_chain items c zs -> ys = zs.
Proof.
  intros H. revert zs. induction H as [|c next ys E C IH]; intros zs Hz;
    inversion Hz; subst; auto.
  f_equal. apply IH. congruence.
Qed.

Lemma collection_chain (l : list Name) :
  lists_collection items l ->
  forall l2 l1, l = (l1 ++ l2)%list -> Indexer.after_chain items (hd_error l2) l2.
Proof.
  intros [_ A]. induction l2 as [|x l2 IH]; intros l1 E; simpl.
  - constructor.
  - econstructor.
    + eapply A; eauto.
    + apply (IH (l1 ++ [x])%list). rewrite <- app_assoc. exact E.
Qed.

Lemma collection_iter (l : list Name) :
  lists_collection items l ->
  Indexer.iter items (List.length l) = (l, Indexer.Stop).
Proof.
  intros C. unfold Indexer.iter. rewrite (proj1 C).
  apply chain_iter_loop; auto.
  now apply (collection_chain l C l []).
Qed.

End Iteration.

Lemma managed_list_collection (l : list string) :
  StronglySorted str_lt l -> lists_collection (ManagedList.accessor l) l.
Proof.
  intros S. split.
  - destruct l; reflexivity.
  - intros l1 x l2 E. simpl.
    destruct (ManagedListFacts.after_spec l x (ManagedListFacts.strictly_sorted_le l S))
      as (r & -> & H).
    f_equal. subst l.
    pose proof (ManagedListFacts.sorted_app_l _ _ _ _ S) as F1.
    pose proof (ManagedListFacts.sorted_app_r _ _ _ S) as S2.
    inversion S2 as [|? ? S3 F2]; subst. rewrite Forall_forall in F1, F2.
    assert (Above : forall p, In p (l1 ++ x :: l2) -> x <s p -> In p l2).
    { intros p Hp Lp. apply in_app_or in Hp. destruct Hp as [Hp|[->|Hp]]; auto.
      - exfalso. eapply ManagedListFacts.str_lt_asym; eauto.
      - now apply str_lt_irrefl in Lp. }
    destruct l2 as [|h t]; destruct r as [p|]; simpl in *; auto.
    + destruct H as (I & L & _). destruct (Above p I L).
    + destruct H as (I & L & Least). f_equal.
      destruct (Above p I L) as [->|Ht]; auto. exfalso.
      inversion S3 as [|? ? _ F3]; subst. rewrite Forall_forall in F3.
      assert (Lh : x <s h) by (apply F2; now left).
      assert (Ih : In h (l1 ++ x :: h :: t)).
      { apply in_or_app. right. right. now left. }
      pose proof (Least h Ih Lh) as Le.
      eapply (str_lt_irrefl h), ManagedListFacts.str_lt_le_trans; eauto.
    + exfalso. apply (H h); [apply in_or_app; right; right; now left|].
      apply F2. now left.
Qed.

(** ** The managed list Indexer *)

Lemma add_adds_key (l : list string) (k : string) : adds_key l k (ManagedList.add k l).
Proof.
  repeat split.
  - destruct (ManagedListFacts.add_split k l) as (l1 & l2 & E1 & E2 & _). eauto.
  - apply ManagedListFacts.add_length.
  - apply ManagedListFacts.add_sorted.
  - apply ManagedListFacts.add_strictly_sorted.
Qed.

Lemma managed_insert_inv (l : list string) (a b : option string)
    (k : string) (l' : list string) :
  ManagedList.insert l a b = Ok (k, l') ->
  Indexer.insert (ManagedList.accessor l) Indexer.identity a b = Ok k /\
  l' = ManagedList.add k l.
Proof.
  unfold ManagedList.insert.
  destruct (Indexer.insert (ManagedList.accessor l) Indexer.identity a b);
    cbn [bind]; [|discriminate].
  now intros [= <- <-].
Qed.

Lemma managed_insert_at_start_inv (l : list string) (k : string) (l' : list string) :
  ManagedList.insert_at_start l = Ok (k, l') ->
  exists f, ManagedList.first l = Ok f /\ ManagedList.insert l None f = Ok (k, l').
Proof.
  unfold ManagedList.insert_at_start.
  destruct (ManagedList.first l) as [f|]; cbn [bind]; [eauto|discriminate].
Qed.

Lemma managed_insert_at_end_inv (l : list string) (k : string) (l' : list string) :
  ManagedList.insert_at_end l = Ok (k, l') ->
  exists e, ManagedList.last l = Ok e /\ ManagedList.insert l e None = Ok (k, l').
Proof.
  unfold ManagedList.insert_at_end.
  destruct (ManagedList.last l) as [e|]; cbn [bind]; [eauto|discriminate].
Qed.

(** With at most one name given, the key that [insert] generates on a sorted
    list is not yet stored. *)
Lemma managed_insert_fresh (l : list string) (a b : option string)
    (k : string) (l' : list string) :
  StronglySorted str_le l ->
  a = None \/ b = None ->
  ManagedList.insert l a b = Ok (k, l') ->
  ~ In k l.
Proof.
  intros S N H. apply managed_insert_inv in H. destruct H as [H _].
  unfold Indexer.insert, Indexer.resolve, Indexer.identity in H.
  destruct a as [a|], b as [b|]; [destruct N; discriminate| | |]; simpl in H.
  - (* after given: the upper bound is the least key above it *)
    destruct (ManagedListFacts.after_spec l a S) as (r & E & G).
    rewrite E in H. cbn [bind] in H.
    apply generate_key_between_bounds in H. destruct H as [Lo Hi].
    specialize (Lo a eq_refl). intros I.
    destruct r as [p|]; simpl in G.
    + destruct G as (_ & _ & Least). specialize (Hi p eq_refl).
      eapply (str_lt_irrefl k), ManagedListFacts.str_lt_le_trans; eauto.
    + now apply (G k).
  - (* before given: the lower bound is the greatest key below it *)
    destruct (ManagedListFacts.before_spec l b S) as (r & E & G).
    rewrite E in H. cbn [bind] in H.
    apply generate_key_between_bounds in H. destruct H as [Lo Hi].
    specialize (Hi b eq_refl). intros I.
    destruct r as [p|]; simpl in G.
    + destruct G as (_ & _ & Greatest). specialize (Lo p eq_refl).
      eapply (str_lt_irrefl k), ManagedListFacts.str_le_lt_trans; eauto.
    + now apply (G k).
  - (* neither given: the lower bound is the largest key *)
    destruct (ManagedListFacts.last_spec l S) as (r & E & G).
    rewrite E in H. cbn [bind] in H.
    apply generate_key_between_bounds in H. destruct H as [Lo _].
    intros I. destruct r as [m|]; simpl in G.
    + destruct G as (_ & Largest). specialize (Lo m eq_refl).
      eapply (str_lt_irrefl k), ManagedListFacts.str_le_lt_trans; eauto.
    + subst l. destruct I.
Qed.

(** With at most one name given, [insert] keeps the keys in strictly
    increasing order, and so do [insert_at_start] and [insert_at_end]. *)
Lemma managed_insert_strictly_sorted (l : list string) (a b : option string)
    (k : string) (l' : list string) :
  StronglySorted str_lt l ->
  a = None \/ b = None ->
  ManagedList.insert l a b = Ok (k, l') ->
  StronglySorted str_lt l'.
Proof.
  intros S N H. pose proof (managed_insert_inv l a b k l' H) as [_ ->].
  apply ManagedListFacts.add_strictly_sorted; auto.
  eapply managed_insert_fresh; eauto using ManagedListFacts.strictly_sorted_le.
Qed.

(** C10.  Every [insert] of [ManagedListIndexer] that returns a key adds that
    key to the list and leaves the stored keys as they are: the length grows
    by one, a sorted list stays sorted, and keys in strictly increasing order
    stay so when the new key is not stored yet.  The same holds for the
    inherited [insert_at_start] and [insert_at_end], which go through the
    same [insert]. *)
Theorem managed_insert_keeps_sorted (l : list string) (k : string) (l' : list string) :
  (forall a b, ManagedList.insert l a b = Ok (k, l') -> adds_key l k l') /\
  (ManagedList.insert_at_start l = Ok (k, l') -> adds_key l k l') /\
  (ManagedList.insert_at_end l = Ok (k, l') -> adds_key l k l').
Proof.
  assert (G : forall a b, ManagedList.insert l a b = Ok (k, l') -> adds_key l k l').
  { intros a b H. pose proof (managed_insert_inv l a b k l' H) as [_ ->].
    apply add_adds_key. }
  split; [exact G|]. split.
  - intros H. apply managed_insert_at_start_inv in H. destruct H as (f & _ & H).
    now apply (G None f).
  - intros H. apply managed_insert_at_end_inv in H. destruct H as (e & _ & H).
    now apply (G e None).
Qed.

Lemma managed_insert_keeps_sorted_witness :
  adds_key ["a0"; "a1"] "a0V" ["a0"; "a0V"; "a1"] /\
  adds_key ["a0"; "a1"] "Zz" ["Zz"; "a0"; "a1"] /\
  adds_key ["a0"; "a1"] "a2" ["a0"; "a1"; "a2"].
Proof.
  split; [|split].
  - destruct (managed_insert_keeps_sorted ["a0"; "a1"] "a0V" ["a0"; "a0V"; "a1"])
      as (T & _).
    apply (T (Some "a0") (Some "a1")). reflexivity.
  - destruct (managed_insert_keeps_sorted ["a0"; "a1"] "Zz" ["Zz"; "a0"; "a1"])
      as (_ & T & _).
    apply T. reflexivity.
  - destruct (managed_insert_keeps_sorted ["a0"; "a1"] "a2" ["a0"; "a1"; "a2"])
      as (_ & _ & T).
    apply T. reflexivity.
Defined.

(** ** The scenarios of the tests *)

(** [test_managed_list_indexer]: [i1] starts with [a], [i2 > i1],
    [i1 < i3 < i2], [i3 < i4 < i2], [i5 > i2], [i6 < i1], and the list is
    [[i6, i1, i3, i4, i2, i5]]. *)
Example managed_list_scenario_run :
  managed_list_scenario =
  Ok (["a0"; "a1"; "a0V"; "a0l"; "a2"; "Zz"],
      ["Zz"; "a0"; "a0V"; "a0l"; "a1"; "a2"]).
Proof. reflexivity. Qed.

(** [test_named_file_indexer]: iterating yields
    [[i6name, i1name, i3name, i4name, i2name, i5name]]. *)
Example file_scenario_run :
  file_scenario =
  Ok (["a0--a"; "a1--a"; "a0V--a"; "a0l--a"; "a2--a"; "Zz--a"],
      (["Zz--a"; "a0--a"; "a0V--a"; "a0l--a"; "a1--a"; "a2--a"], Indexer.Stop)).
Proof. vm_compute. reflexivity. Qed.

(** [test_managed_list]: a list given out of order is iterated in order. *)
Example managed_list_initial_run :
  Indexer.iter (ManagedList.accessor (ManagedList.ManagedListIndexer ["a2"; "a0"; "a1"])) 3
  = (["a0"; "a1"; "a2"], Indexer.Stop).
Proof. reflexivity. Qed.

(** * More of the code

    ** Rank answers are unique *)

Lemma str_le_antisym (s t : string) : str_le s t -> str_le t s -> s = t.
Proof.
  intros [H1|H1] [H2|H2]; auto.
  exfalso. eapply ManagedListFacts.str_lt_asym; eauto.
Qed.

Lemma greatest_below_unique (l l' : list string) (x : string) (r r' : option string) :
  (forall k, In k l <-> In k l') ->
  greatest_below l x r -> greatest_below l' x r' -> r = r'.
Proof.
  intros E. destruct r as [p|], r' as [q|]; simpl; auto.
  - intros (I & L & G) (I' & L' & G'). f_equal.
    apply str_le_antisym; [apply G'|apply G]; auto; now apply E.
  - intros (I & L & _) N. exfalso. apply (N p); auto. now apply E.
  - intros N (I & L & _). exfalso. apply (N q); auto. now apply E.
Qed.

Lemma least_above_unique (l l' : list string) (x : string) (r r' : option string) :
  (forall k, In k l <-> In k l') ->
  least_above l x r -> least_above l' x r' -> r = r'.
Proof.
  intros E. destruct r as [p|], r' as [q|]; simpl; auto.
  - intros (I & L & G) (I' & L' & G'). f_equal.
    apply str_le_antisym; [apply G|apply G']; auto; now apply E.
  - intros (I & L & _) N. exfalso. apply (N p); auto. now apply E.
  - intros N (I & L & _). exfalso. apply (N q); auto. now apply E.
Qed.

Lemma smallest_of_unique (l l' : list string) (r r' : option string) :
  (forall k, In k l <-> In k l') ->
  smallest_of l r -> smallest_of l' r' -> r = r'.
Proof.
  intros E. destruct r as [p|], r' as [q|]; simpl; auto.
  - intros (I & G) (I' & G'). f_equal.
    apply str_le_antisym; [apply G|apply G']; auto; now apply E.
  - intros (I & _) ->. apply E in I. destruct I.
  - intros -> (I & _). apply E in I. destruct I.
Qed.

Lemma largest_of_unique (l l' : list string) (r r' : option string) :
  (forall k, In k l <-> In k l') ->
  largest_of l r -> largest_of l' r' -> r = r'.
Proof.
  intros E. destruct r as [p|], r' as [q|]; simpl; auto.
  - intros (I & G) (I' & G'). f_equal.
    apply str_le_antisym; [apply G'|apply G]; auto; now apply E.
  - intros (I & _) ->. apply E in I. destruct I.
  - intros -> (I & _). apply E in I. destruct I.
Qed.

(** ** Neighbours on the managed list *)

Lemma neighbours_inverse (l : list string) (x y : string) :
  StronglySorted str_le l ->
  (In x l -> ManagedList.after l (Some x) = Ok (Some y) ->
   ManagedList.before l (Some y) = Ok (Some x)) /\
  (In y l -> ManagedList.before l (Some y) = Ok (Some x) ->
   ManagedList.after l (Some x) = Ok (Some y)).
Proof.
  intros S. split; intros I H.
  - destruct (ManagedListFacts.after_spec l x S) as (r & E & G).
    rewrite H in E. injection E as <-. simpl in G. destruct G as (Iy & Lxy & Least).
    destruct (ManagedListFacts.before_spec l y S) as (r & -> & G). do 2 f_equal.
    apply (greatest_below_unique l l y r (Some x)); [tauto|exact G|].
    simpl. repeat split; auto.
    intros k Ik Lk. apply ManagedListFacts.not_lt_le. intros Lxk.
    apply (str_lt_irrefl k).
    eapply ManagedListFacts.str_lt_le_trans; [exact Lk|]. now apply Least.
  - destruct (ManagedListFacts.before_spec l y S) as (r & E & G).
    rewrite H in E. injection E as <-. simpl in G. destruct G as (Ix & Lxy & Greatest).
    destruct (ManagedListFacts.after_spec l x S) as (r & -> & G). do 2 f_equal.
    apply (least_above_unique l l x r (Some y)); [tauto|exact G|].
    simpl. repeat split; auto.
    intros k Ik Lk. apply ManagedListFacts.not_lt_le. intros Lky.
    apply (str_lt_irrefl k).
    eapply ManagedListFacts.str_le_lt_trans; [|exact Lk]. now apply Greatest.
Qed.

(** X1.  On a sorted managed list, [before] undoes [after] and [after] undoes
    [before] at every stored name: when [after(x)] is [y] for a stored [x],
    [before(y)] is [x], and when [before(y)] is [x] for a stored [y],
    [after(x)] is [y]. *)
Theorem before_after_inverse (l : list string) (x y : string) :
  StronglySorted str_le l ->
  (In x l -> ManagedList.after l (Some x) = Ok (Some y) ->
   ManagedList.before l (Some y) = Ok (Some x)) /\
  (In y l -> ManagedList.before l (Some y) = Ok (Some x) ->
   ManagedList.after l (Some x) = Ok (Some y)).
Proof. exact (neighbours_inverse l x y). Qed.

Lemma before_after_inverse_witness :
  ManagedList.before ["a0"; "a1"; "a1"; "a2"] (Some "a2") = Ok (Some "a1") /\
  ManagedList.after ["a0"; "a1"; "a1"; "a2"] (Some "a0") = Ok (Some "a1").
Proof.
  assert (S : StronglySorted str_le ["a0"; "a1"; "a1"; "a2"]).
  { repeat constructor; simpl; auto; right; reflexivity. }
  split.
  - apply (proj1 (before_after_inverse _ "a1" "a2" S)); [simpl; auto|reflexivity].
  - apply (proj2 (before_after_inverse _ "a0" "a1" S)); [simpl; auto|reflexivity].
Defined.

(** ** Iteration, also over a managed list with equal keys *)

(** A sorted list has a strictly increasing list with the same elements. *)
Lemma strict_part (l : list string) :
  StronglySorted str_le l ->
  exists u, StronglySorted str_lt u /\ (forall x, In x u <-> In x l) /\
            List.length u <= List.length l.
Proof.
  induction 1 as [|x l S (u & Su & E & Len) F].
  - exists []. repeat split; auto; constructor.
  - rewrite Forall_forall in F.
    destruct (in_dec string_dec x l) as [I|N].
    + exists u. split; auto. split; [|simpl; lia].
      intros y. rewrite E. simpl. split; auto. intros [<-|H]; auto.
    + exists (x :: u). split; [|split; [|simpl; lia]].
      * constructor; auto. apply Forall_forall. intros y Hy. apply E in Hy.
        destruct (F y Hy) as [L|<-]; [auto|contradiction].
      * intros y. simpl. rewrite E. tauto.
Qed.

(** The managed list over a sorted list answers for the strictly increasing
    list of its elements. *)
Lemma sorted_list_collection (l u : list string) :
  StronglySorted str_le l ->
  StronglySorted str_lt u ->
  (forall x, In x u <-> In x l) ->
  lists_collection (ManagedList.accessor l) u.
Proof.
  intros S Su E. split.
  - simpl. destruct (ManagedListFacts.first_spec l S) as (r & -> & G). f_equal.
    apply (smallest_of_unique l u r (hd_error u)); [intros k; symmetry; apply E|exact G|].
    destruct u as [|m u]; simpl; auto. split; [now left|].
    inversion Su as [|? ? _ F]; subst. rewrite Forall_forall in F.
    intros k [<-|Hk]; [now right|left; auto].
  - intros l1 x l2 ->. simpl.
    destruct (ManagedListFacts.after_spec l x S) as (r & -> & G). f_equal.
    apply (least_above_unique l (l1 ++ x :: l2) x r (hd_error l2));
      [intros k; symmetry; apply E|exact G|].
    pose proof (ManagedListFacts.sorted_app_l _ _ _ _ Su) as F1.
    pose proof (ManagedListFacts.sorted_app_r _ _ _ Su) as S2.
    inversion S2 as [|? ? S3 F2]; subst. rewrite Forall_forall in F1, F2.
    assert (Above : forall p, In p (l1 ++ x :: l2) -> x <s p -> In p l2).
    { intros p Hp Lp. apply in_app_or in Hp. destruct Hp as [Hp|[->|Hp]]; auto.
      - exfalso. eapply ManagedListFacts.str_lt_asym; eauto.
      - now apply str_lt_irrefl in Lp. }
    destruct l2 as [|h t]; simpl.
    + intros k Hk Lk. destruct (Above k Hk Lk).
    + split; [apply in_or_app; right; right; now left|].
      split; [apply F2; now left|].
      intros k Hk Lk. destruct (Above k Hk Lk) as [<-|Ht]; [now right|].
      inversion S3 as [|? ? _ F3]; subst. rewrite Forall_forall in F3.
      left. auto.
Qed.

(** Iterating over a sorted managed list stops and yields its elements in
    strictly increasing order, each one once. *)
Lemma sorted_iteration (l : list string) :
  StronglySorted str_le l ->
  exists ys,
    Indexer.iter (ManagedList.accessor l) (List.length l) = (ys, Indexer.Stop) /\
    StronglySorted str_lt ys /\
    (forall x, In x ys <-> In x l).
Proof.
  intros S. destruct (strict_part l S) as (u & Su & E & Len).
  exists u. split; [|split; auto].
  pose proof (sorted_list_collection l u S Su E) as C.
  unfold Indexer.iter. rewrite (proj1 C).
  apply chain_iter_loop; auto.
  now apply (collection_chain _ u C u []).
Qed.

Example managed_iteration_equal_keys :
  Indexer.iter (ManagedList.accessor (ManagedList.ManagedListIndexer ["a1"; "a0"; "a1"])) 3
  = (["a0"; "a1"], Indexer.Stop).
Proof. reflexivity. Qed.

Lemma strictly_sorted_nodup (l : list string) : StronglySorted str_lt l -> NoDup l.
Proof.
  induction 1 as [|y ys Sy IH F]; constructor; auto.
  rewrite Forall_forall in F. intros H. now apply F, str_lt_irrefl in H.
Qed.

(** C9, as stated, fails when a key is stored twice, which [SortedList]
    allows: [ManagedListIndexer(["a1", "a0", "a1"])] holds three items and
    iterating it yields two, and after [insert("a0", "a2")] has returned the
    stored key ["a1"] the list holds four items and iterating it yields
    three.  The second ["a1"] is skipped, because [after("a1")] is the first
    key above ["a1"]. *)
Lemma repeated_key_counterexample :
  ManagedList.ManagedListIndexer ["a1"; "a0"; "a1"] = ["a0"; "a1"; "a1"] /\
  Indexer.iter (ManagedList.accessor ["a0"; "a1"; "a1"]) 3
    = (["a0"; "a1"], Indexer.Stop) /\
  ManagedList.insert ["a0"; "a1"; "a2"] (Some "a0") (Some "a2")
    = Ok ("a1", ["a0"; "a1"; "a1"; "a2"]) /\
  Indexer.iter (ManagedList.accessor ["a0"; "a1"; "a1"; "a2"]) 4
    = (["a0"; "a1"; "a2"], Indexer.Stop) /\
  Indexer.iter (ManagedList.accessor ["a0"; "a1"; "a1"; "a2"]) 10
    = (["a0"; "a1"; "a2"], Indexer.Stop) /\
  ManagedList.after ["a0"; "a1"; "a1"; "a2"] (Some "a1") = Ok (Some "a2") /\
  count_occ string_dec ["a0"; "a1"; "a1"; "a2"] "a1" = 2 /\
  count_occ string_dec ["a0"; "a1"; "a2"] "a1" = 1.
Proof. repeat split. Qed.

(** C9, amended.  Iterating an Indexer yields the names got by starting from
    [first()] and applying [after] to the previous result, up to the first
    absent result, and stops there; that sequence is unique, so every
    iteration over an unchanged backend yields it again.  For an accessor
    that answers for an ordered collection, as the managed list with its keys
    in strictly increasing order does, that is every item once, in order.
    For a sorted managed list in general, it is every stored key once, in
    strictly increasing order: a key that is stored several times is yielded
    one time only. *)
Theorem iteration_follows_after :
  (forall (Name : Type) (items : Accessor Name) (fuel : nat) (ys : list Name),
     Indexer.iter items fuel = (ys, Indexer.Stop) ->
     exists c, first items = Ok c /\ Indexer.after_chain items c ys) /\
  (forall (Name : Type) (items : Accessor Name) (c : option Name)
          (ys : list Name) (fuel : nat),
     first items = Ok c -> Indexer.after_chain items c ys ->
     List.length ys <= fuel ->
     Indexer.iter items fuel = (ys, Indexer.Stop)) /\
  (forall (Name : Type) (items : Accessor Name) (c : option Name)
          (ys zs : list Name),
     Indexer.after_chain items c ys -> Indexer.after_chain items c zs -> ys = zs) /\
  (forall (Name : Type) (items : Accessor Name) (l : list Name),
     lists_collection items l ->
     Indexer.iter items (List.length l) = (l, Indexer.Stop)) /\
  (forall l : list string,
     StronglySorted str_lt l ->
     Indexer.iter (ManagedList.accessor l) (List.length l) = (l, Indexer.Stop)) /\
  (forall l : list string,
     StronglySorted str_le l ->
     exists ys,
       Indexer.iter (ManagedList.accessor l) (List.length l) = (ys, Indexer.Stop) /\
       StronglySorted str_lt ys /\
       (forall x, In x ys <-> In x l) /\
       List.length ys <= List.length l) /\
  (forall keys : list string,
     StronglySorted str_le (ManagedList.ManagedListIndexer keys)) /\
  (forall (l : list string) (a b : option string) (k : string) (l' : list string),
     StronglySorted str_le l ->
     ManagedList.insert l a b = Ok (k, l') ->
     StronglySorted str_le l').
Proof.
  split; [|split; [|split; [|split; [|split; [|split; [|split]]]]]].
  - intros Name items fuel ys. unfold Indexer.iter.
    destruct (first items) as [c|e]; [|discriminate].
    intros H. exists c. split; auto. eapply iter_loop_chain; eauto.
  - intros Name items c ys fuel F C L. unfold Indexer.iter. rewrite F.
    now apply chain_iter_loop.
  - intros Name items. apply after_chain_unique.
  - intros Name items. apply collection_iter.
  - intros l S. now apply collection_iter, managed_list_collection.
  - intros l S. destruct (sorted_iteration l S) as (ys & I & Sy & E).
    exists ys. repeat split; auto; try apply E.
    apply NoDup_incl_length; [now apply strictly_sorted_nodup|].
    intros x. apply E.
  - intros keys. apply ManagedListFacts.ManagedListAccessor_sorted.
  - intros l a b k l' S H. apply managed_insert_inv in H. destruct H as [_ ->].
    now apply ManagedListFacts.add_sorted.
Qed.

Lemma iteration_follows_after_witness :
  Indexer.iter (ManagedList.accessor ["a0"; "a0V"; "a1"]) 3
    = (["a0"; "a0V"; "a1"], Indexer.Stop) /\
  (exists c, first (ManagedList.accessor ["a0"; "a1"]) = Ok c /\
             Indexer.after_chain (ManagedList.accessor ["a0"; "a1"]) c ["a0"; "a1"]) /\
  (exists ys,
     Indexer.iter (ManagedList.accessor ["a0"; "a1"; "a1"; "a2"]) 4
       = (ys, Indexer.Stop) /\
     StronglySorted str_lt ys /\
     (forall x, In x ys <-> In x ["a0"; "a1"; "a1"; "a2"]) /\
     List.length ys <= 4).
Proof.
  destruct iteration_follows_after as (T1 & _ & _ & _ & T5 & T6 & _).
  split; [|split].
  - apply (T5 ["a0"; "a0V"; "a1"]). repeat constructor.
  - apply (T1 _ _ 5). reflexivity.
  - apply (T6 ["a0"; "a1"; "a1"; "a2"]).
    repeat constructor; simpl; auto; right; reflexivity.
Defined.

(** ** The lists a managed list Indexer can hold *)

Lemma managed_insert_at_start_adds (l : list string) (k : string) (l' : list string) :
  ManagedList.insert_at_start l = Ok (k, l') -> l' = ManagedList.add k l.
Proof.
  intros H. apply managed_insert_at_start_inv in H. destruct H as (f & _ & H).
  now apply managed_insert_inv in H.
Qed.

Lemma managed_insert_at_end_adds (l : list string) (k : string) (l' : list string) :
  ManagedList.insert_at_end l = Ok (k, l') -> l' = ManagedList.add k l.
Proof.
  intros H. apply managed_insert_at_end_inv in H. destruct H as (e & _ & H).
  now apply managed_insert_inv in H.
Qed.

Lemma reachable_invariant (keys l ks : list string) :
  ManagedIndexer.reachable keys l ks ->
  StronglySorted str_le l /\
  Permutation (ks ++ keys) l /\
  ManagedIndexer.__len__ l = List.length keys + List.length ks.
Proof.
  assert (Step : forall l ks k,
            StronglySorted str_le l /\ Permutation (ks ++ keys) l ->
            StronglySorted str_le (ManagedList.add k l) /\
            Permutation ((k :: ks) ++ keys) (ManagedList.add k l)).
  { intros l0 ks0 k [S P]. split; [now apply ManagedListFacts.add_sorted|].
    simpl. eapply Permutation_trans; [|apply ManagedListFacts.add_perm].
    now constructor. }
  intros R.
  assert (G : StronglySorted str_le l /\ Permutation (ks ++ keys) l).
  { induction R as [|l l' ks a b k R IH H|l l' ks k R IH H|l l' ks k R IH H].
    - split; [apply ManagedListFacts.ManagedListAccessor_sorted|].
      apply ManagedListFacts.ManagedListAccessor_perm.
    - apply managed_insert_inv in H. destruct H as [_ ->]. now apply Step.
    - apply managed_insert_at_start_adds in H. subst l'. now apply Step.
    - apply managed_insert_at_end_adds in H. subst l'. now apply Step. }
  destruct G as [S P]. repeat split; auto.
  unfold ManagedIndexer.__len__. rewrite <- (Permutation_length P), length_app. lia.
Qed.

(** X2.  Whatever list [ManagedListIndexer(keys)] is given and whatever
    [insert], [insert_at_start] and [insert_at_end] calls have returned since,
    the list it holds is sorted and consists of exactly the given keys and the
    returned keys, each as often as it was given or returned: no call drops
    or changes a stored key, and [len] is the number of given keys plus the
    number of returned ones. *)
Theorem managed_list_invariant (keys l ks : list string) :
  ManagedIndexer.reachable keys l ks ->
  StronglySorted str_le l /\
  Permutation (ks ++ keys) l /\
  ManagedIndexer.__len__ l = List.length keys + List.length ks.
Proof. exact (reachable_invariant keys l ks). Qed.

Lemma managed_list_invariant_witness :
  StronglySorted str_le ["a0"; "a0V"; "a1"] /\
  Permutation (["a0V"] ++ ["a1"; "a0"]) ["a0"; "a0V"; "a1"] /\
  ManagedIndexer.__len__ ["a0"; "a0V"; "a1"] = 2 + 1.
Proof.
  apply (managed_list_invariant ["a1"; "a0"] ["a0"; "a0V"; "a1"] ["a0V"]).
  apply (ManagedIndexer.reach_insert _ ["a0"; "a1"] _ [] (Some "a0") (Some "a1")).
  - apply ManagedIndexer.reach_init.
  - reflexivity.
Defined.

(** X3.  Iterating a managed list Indexer, at any time, stops and yields the
    stored keys in strictly increasing order, each key once: a key that is
    stored several times is yielded one time only, so the iteration can be
    shorter than [len]. *)
Theorem managed_iteration_distinct (keys l ks : list string) :
  ManagedIndexer.reachable keys l ks ->
  exists ys,
    Indexer.iter (ManagedList.accessor l) (ManagedIndexer.__len__ l) = (ys, Indexer.Stop) /\
    StronglySorted str_lt ys /\
    (forall x, In x ys <-> In x l) /\
    List.length ys <= ManagedIndexer.__len__ l.
Proof.
  intros R. destruct (reachable_invariant keys l ks R) as (S & _).
  destruct (sorted_iteration l S) as (ys & I & Sy & E).
  exists ys. repeat split; auto; try apply E.
  apply NoDup_incl_length.
  - clear I E. induction Sy as [|y ys Sy IH F]; constructor; auto.
    rewrite Forall_forall in F. intros H. now apply F, str_lt_irrefl in H.
  - intros x. apply E.
Qed.

Lemma managed_iteration_distinct_witness :
  exists ys,
    Indexer.iter (ManagedList.accessor ["a0"; "a1"; "a1"; "a2"])
      (ManagedIndexer.__len__ ["a0"; "a1"; "a1"; "a2"]) = (ys, Indexer.Stop) /\
    StronglySorted str_lt ys /\
    (forall x, In x ys <-> In x ["a0"; "a1"; "a1"; "a2"]) /\
    List.length ys <= ManagedIndexer.__len__ ["a0"; "a1"; "a1"; "a2"].
Proof.
  apply (managed_iteration_distinct ["a0"; "a1"; "a2"] _ ["a1"]).
  apply (ManagedIndexer.reach_insert _ ["a0"; "a1"; "a2"] _ [] (Some "a0") (Some "a2")).
  - apply ManagedIndexer.reach_init.
  - reflexivity.
Defined.

(** ** Indexing the managed list Indexer *)

Lemma getitem_nth (l : list string) (i : nat) :
  i < List.length l -> ManagedList.getitem l i = Ok (nth i l "").
Proof.
  intros H. unfold ManagedList.getitem.
  now rewrite (nth_error_nth' l "" H).
Qed.

Lemma getitem_nonneg (l : list string) (i : nat) :
  i < List.length l ->
  ManagedIndexer.__getitem__ l (Z.of_nat i) = Ok (nth i l "").
Proof.
  intros H. unfold ManagedIndexer.__getitem__.
  destruct (Z.ltb_spec (Z.of_nat i) 0) as [|_]; [lia|].
  destruct (Z.ltb_spec (Z.of_nat i) 0) as [|_]; [lia|].
  destruct (Z.leb_spec (Z.of_nat (List.length l)) (Z.of_nat i)) as [|_]; [lia|].
  cbn [orb]. rewrite Nat2Z.id. now apply getitem_nth.
Qed.

Lemma getitem_negative (l : list string) (i : nat) :
  i < List.length l ->
  ManagedIndexer.__getitem__ l (Z.of_nat i - Z.of_nat (List.length l))
  = Ok (nth i l "").
Proof.
  intros H. unfold ManagedIndexer.__getitem__.
  destruct (Z.ltb_spec (Z.of_nat i - Z.of_nat (List.length l)) 0) as [_|]; [|lia].
  replace (Z.of_nat i - Z.of_nat (List.length l) + Z.of_nat (List.length l))%Z
    with (Z.of_nat i) by lia.
  destruct (Z.ltb_spec (Z.of_nat i) 0) as [|_]; [lia|].
  destruct (Z.leb_spec (Z.of_nat (List.length l)) (Z.of_nat i)) as [|_]; [lia|].
  cbn [orb]. rewrite Nat2Z.id. now apply getitem_nth.
Qed.

Lemma getitem_out_of_range (l : list string) (key : Z) :
  (key < - Z.of_nat (List.length l) \/ Z.of_nat (List.length l) <= key)%Z ->
  ManagedIndexer.__getitem__ l key = Raise IndexError.
Proof.
  intros H. unfold ManagedIndexer.__getitem__.
  destruct (Z.ltb_spec key 0).
  - destruct (Z.ltb_spec (key + Z.of_nat (List.length l)) 0) as [|]; [reflexivity|lia].
  - destruct (Z.ltb_spec key 0); [lia|].
    destruct (Z.leb_spec (Z.of_nat (List.length l)) key); [reflexivity|lia].
Qed.

Lemma sorted_nth (l : list string) (i j : nat) :
  StronglySorted str_le l -> i <= j -> j < List.length l ->
  str_le (nth i l "") (nth j l "").
Proof.
  intros Hs. revert i j. induction Hs as [|x l Hs IH F]; intros i j Hij Hj.
  - simpl in Hj. lia.
  - destruct i as [|i], j as [|j]; simpl in *; try lia.
    + now right.
    + rewrite Forall_forall in F. apply F, nth_In. lia.
    + apply IH; lia.
Qed.

(** X4.  [idx[i]] of a managed list Indexer answers for the indices from
    [-len(idx)] to [len(idx) - 1] and raises [IndexError] for every other
    integer; [idx[i - len(idx)]] is [idx[i]]; the items come in ascending
    order of the index; and on a list that is not empty [first()] is [idx[0]]
    and [last()] is [idx[-1]]. *)
Theorem managed_indexing (keys l ks : list string) :
  ManagedIndexer.reachable keys l ks ->
  let len := Z.of_nat (ManagedIndexer.__len__ l) in
  (forall key, (- len <= key < len)%Z <->
               exists v, ManagedIndexer.__getitem__ l key = Ok v) /\
  (forall key, (key < - len \/ len <= key)%Z ->
               ManagedIndexer.__getitem__ l key = Raise IndexError) /\
  (forall key, (0 <= key < len)%Z ->
               ManagedIndexer.__getitem__ l (key - len) = ManagedIndexer.__getitem__ l key) /\
  (forall i j vi vj, (0 <= i <= j)%Z -> (j < len)%Z ->
     ManagedIndexer.__getitem__ l i = Ok vi ->
     ManagedIndexer.__getitem__ l j = Ok vj -> str_le vi vj) /\
  (l <> [] ->
   exists v0 v1,
     ManagedIndexer.__getitem__ l 0 = Ok v0 /\ ManagedList.first l = Ok (Some v0) /\
     ManagedIndexer.__getitem__ l (-1) = Ok v1 /\ ManagedList.last l = Ok (Some v1)).
Proof.
  intros R len. destruct (reachable_invariant keys l ks R) as (S & _).
  unfold ManagedIndexer.__len__ in len.
  assert (In_range : forall key, (0 <= key < len)%Z ->
            ManagedIndexer.__getitem__ l key = Ok (nth (Z.to_nat key) l "")).
  { intros key H. rewrite <- (Z2Nat.id key) at 1 by lia.
    apply getitem_nonneg. subst len. lia. }
  assert (Neg : forall key, (0 <= key < len)%Z ->
            ManagedIndexer.__getitem__ l (key - len) = Ok (nth (Z.to_nat key) l "")).
  { intros key H. rewrite <- (Z2Nat.id key) at 1 by lia.
    apply getitem_negative. subst len. lia. }
  split; [|split; [|split; [|split]]].
  - intros key. split.
    + intros H. destruct (Z.ltb_spec key 0).
      * replace key with ((key + len) - len)%Z by lia. eexists. apply Neg. lia.
      * eexists. apply In_range. lia.
    + intros [v H].
      destruct (Z.ltb_spec key (- len)); [rewrite getitem_out_of_range in H by auto; discriminate|].
      destruct (Z.leb_spec len key); [rewrite getitem_out_of_range in H by auto; discriminate|].
      lia.
  - intros key H. now apply getitem_out_of_range.
  - intros key H. now rewrite Neg, In_range.
  - intros i j vi vj Hij Hj Hi Hv.
    rewrite In_range in Hi, Hv by lia. injection Hi as <-. injection Hv as <-.
    apply sorted_nth; auto; subst len; lia.
  - intros N. destruct l as [|x l]; [congruence|].
    exists x, (nth (List.length l) (x :: l) "").
    split; [reflexivity|]. split; [reflexivity|].
    assert (E : ManagedIndexer.__getitem__ (x :: l) (-1)
                = Ok (nth (List.length l) (x :: l) "")).
    { replace (-1)%Z with (Z.of_nat (List.length l) - Z.of_nat (List.length (x :: l)))%Z
        by (simpl List.length; lia).
      apply getitem_negative. simpl. lia. }
    split; [exact E|].
    unfold ManagedList.last.
    replace (List.length (x :: l) - 1) with (List.length l) by (simpl; lia).
    rewrite getitem_nth by (simpl; lia). reflexivity.
Qed.

Lemma managed_indexing_witness :
  (exists v, ManagedIndexer.__getitem__ ["a0"; "a0V"; "a1"] (-3) = Ok v) /\
  ManagedIndexer.__getitem__ ["a0"; "a0V"; "a1"] 3 = Raise IndexError /\
  str_le "a0" "a1".
Proof.
  assert (R : ManagedIndexer.reachable ["a1"; "a0"] ["a0"; "a0V"; "a1"] ["a0V"]).
  { apply (ManagedIndexer.reach_insert _ ["a0"; "a1"] _ [] (Some "a0") (Some "a1"));
      [apply ManagedIndexer.reach_init|reflexivity]. }
  destruct (managed_indexing _ _ _ R) as (T1 & T2 & _ & T4 & _).
  split; [|split].
  - apply T1. simpl. lia.
  - apply T2. simpl. lia.
  - apply (T4 0%Z 2%Z); [lia|simpl; lia|reflexivity|reflexivity].
Defined.

(** ** Inserting at the ends of the managed list *)

Lemma first_hd (l : list string) : ManagedList.first l = Ok (hd_error l).
Proof. destruct l; reflexivity. Qed.

Lemma last_hd_rev (l : list string) : ManagedList.last l = Ok (hd_error (rev l)).
Proof.
  destruct (ManagedListFacts.exists_last_or_nil l) as [->|(l' & m & ->)]; [reflexivity|].
  rewrite rev_app_distr. simpl. unfold ManagedList.last.
  destruct (l' ++ [m])%list eqn:E; [now destruct l'|]. rewrite <- E.
  rewrite length_app, Nat.add_comm. cbn [List.length Nat.add Nat.sub].
  rewrite Nat.sub_0_r, ManagedListFacts.getitem_app. reflexivity.
Qed.

Lemma before_first_none (l : list string) (f : string) :
  StronglySorted str_le l -> hd_error l = Some f ->
  ManagedList.before l (Some f) = Ok None.
Proof.
  intros S H. apply before_none_iff; auto.
  destruct l as [|x l]; [discriminate|]. injection H as ->.
  inversion S as [|? ? _ F]; subst. rewrite Forall_forall in F.
  intros k [<-|Hk]; [apply str_lt_irrefl|].
  intros L. apply (str_lt_irrefl k). eapply ManagedListFacts.str_lt_le_trans; eauto.
Qed.

Lemma after_last_none (l : list string) (m : string) :
  StronglySorted str_le l -> hd_error (rev l) = Some m ->
  ManagedList.after l (Some m) = Ok None.
Proof.
  intros S H. apply after_none_iff; auto.
  destruct (ManagedListFacts.exists_last_or_nil l) as [->|(l' & m' & ->)];
    [discriminate|].
  rewrite rev_app_distr in H. simpl in H. injection H as ->.
  pose proof (ManagedListFacts.sorted_app_l _ _ _ _ S) as F.
  rewrite Forall_forall in F.
  intros k Hk L. apply in_app_or in Hk. destruct Hk as [Hk|[<-|[]]].
  - apply (str_lt_irrefl k). eapply ManagedListFacts.str_le_lt_trans; eauto.
  - now apply str_lt_irrefl in L.
Qed.

(** X5.  On a managed list Indexer, [insert_at_start()] generates its key
    with no lower bound and the smallest stored key as upper bound,
    [insert_at_end()] with the largest stored key as lower bound and no upper
    bound, and [insert()] without arguments is the same call as
    [insert_at_end()]; on an empty list all three generate from two absent
    bounds. *)
Theorem managed_insert_at_ends (keys l ks : list string) :
  ManagedIndexer.reachable keys l ks ->
  ManagedList.insert_at_start l =
    (k <- KeyGen.generate_key_between None (hd_error l) ;;
     Ok (k, ManagedList.add k l)) /\
  ManagedList.insert_at_end l =
    (k <- KeyGen.generate_key_between (hd_error (rev l)) None ;;
     Ok (k, ManagedList.add k l)) /\
  ManagedList.insert l None None = ManagedList.insert_at_end l.
Proof.
  intros R. destruct (reachable_invariant keys l ks R) as (S & _).
  assert (E : ManagedList.insert_at_end l =
    (k <- KeyGen.generate_key_between (hd_error (rev l)) None ;;
     Ok (k, ManagedList.add k l))).
  { unfold ManagedList.insert_at_end, ManagedList.insert, Indexer.insert,
      Indexer.resolve.
    rewrite last_hd_rev. cbn [bind].
    destruct (hd_error (rev l)) as [m|] eqn:H; simpl.
    - rewrite (after_last_none l m S H). reflexivity.
    - rewrite last_hd_rev, H. reflexivity. }
  split; [|split; [exact E|]].
  - unfold ManagedList.insert_at_start, ManagedList.insert, Indexer.insert,
      Indexer.resolve.
    rewrite first_hd. cbn [bind].
    destruct (hd_error l) as [f|] eqn:H; simpl.
    + rewrite (before_first_none l f S H). reflexivity.
    + destruct l; [reflexivity|discriminate].
  - rewrite E. unfold ManagedList.insert, Indexer.insert, Indexer.resolve. simpl.
    rewrite last_hd_rev. reflexivity.
Qed.

Lemma managed_insert_at_ends_witness :
  ManagedList.insert ["a0"; "a0V"; "a1"] None None
  = ManagedList.insert_at_end ["a0"; "a0V"; "a1"].
Proof.
  apply (managed_insert_at_ends ["a1"; "a0"] ["a0"; "a0V"; "a1"] ["a0V"]).
  apply (ManagedIndexer.reach_insert _ ["a0"; "a1"] _ [] (Some "a0") (Some "a1"));
    [apply ManagedIndexer.reach_init|reflexivity].
Defined.

(** ** The new key among its neighbours *)

Lemma add_neighbours (l : list string) (k : string) :
  StronglySorted str_le l ->
  In k (ManagedList.add k l) /\
  ManagedList.before (ManagedList.add k l) (Some k) = ManagedList.before l (Some k) /\
  ManagedList.after (ManagedList.add k l) (Some k) = ManagedList.after l (Some k) /\
  (forall p, ManagedList.before l (Some k) = Ok (Some p) ->
             ManagedList.after (ManagedList.add k l) (Some p) = Ok (Some k)) /\
  (forall q, ManagedList.after l (Some k) = Ok (Some q) ->
             ManagedList.before (ManagedList.add k l) (Some q) = Ok (Some k)).
Proof.
  intros S.
  pose proof (ManagedListFacts.add_sorted k l S) as S'.
  assert (Ik : In k (ManagedList.add k l)) by (apply ManagedListFacts.add_in; auto).
  assert (Old : forall z, In z l -> In z (ManagedList.add k l)).
  { intros z Hz. apply ManagedListFacts.add_in. auto. }
  assert (New : forall z, In z (ManagedList.add k l) -> z <> k -> In z l).
  { intros z Hz N. apply ManagedListFacts.add_in in Hz. tauto. }
  split; [exact Ik|]. split; [|split; [|split]].
  - destruct (ManagedListFacts.before_spec _ k S') as (r & -> & G).
    destruct (ManagedListFacts.before_spec l k S) as (r' & -> & G'). f_equal.
    apply (greatest_below_unique l l k r r'); [tauto| |exact G'].
    destruct r as [p|]; simpl in *.
    + destruct G as (I & L & Gr). repeat split; auto.
      apply New; auto. intros ->. now apply str_lt_irrefl in L.
    + auto.
  - destruct (ManagedListFacts.after_spec _ k S') as (r & -> & G).
    destruct (ManagedListFacts.after_spec l k S) as (r' & -> & G'). f_equal.
    apply (least_above_unique l l k r r'); [tauto| |exact G'].
    destruct r as [p|]; simpl in *.
    + destruct G as (I & L & Gr). repeat split; auto.
      apply New; auto. intros ->. now apply str_lt_irrefl in L.
    + auto.
  - intros p H.
    destruct (ManagedListFacts.before_spec l k S) as (r & E & G).
    rewrite H in E. injection E as <-. simpl in G. destruct G as (Ip & Lp & Gr).
    destruct (ManagedListFacts.after_spec _ p S') as (r & -> & G). do 2 f_equal.
    apply (least_above_unique (ManagedList.add k l) (ManagedList.add k l) p r (Some k));
      [tauto|exact G|].
    simpl. repeat split; auto.
    intros z Hz Lz. apply ManagedListFacts.not_lt_le. intros Lzk.
    apply (str_lt_irrefl z). eapply ManagedListFacts.str_le_lt_trans; [|exact Lz].
    apply Gr; auto. apply New; auto. intros ->. now apply str_lt_irrefl in Lzk.
  - intros q H.
    destruct (ManagedListFacts.after_spec l k S) as (r & E & G).
    rewrite H in E. injection E as <-. simpl in G. destruct G as (Iq & Lq & Le).
    destruct (ManagedListFacts.before_spec _ q S') as (r & -> & G). do 2 f_equal.
    apply (greatest_below_unique (ManagedList.add k l) (ManagedList.add k l) q r (Some k));
      [tauto|exact G|].
    simpl. repeat split; auto.
    intros z Hz Lz. apply ManagedListFacts.not_lt_le. intros Lkz.
    apply (str_lt_irrefl z). eapply ManagedListFacts.str_lt_le_trans; [exact Lz|].
    apply Le; auto. apply New; auto. intros ->. now apply str_lt_irrefl in Lkz.
Qed.

(** X6.  After an [insert], [insert_at_start] or [insert_at_end] of a managed
    list Indexer has returned the key [k], the key is stored, and it stands
    next to the stored keys that were nearest to it: [before(k)] and
    [after(k)] answer as they did before the call, [after] of that
    predecessor is now [k], and [before] of that successor is now [k]. *)
Theorem managed_insert_then_lookup (keys l ks l' : list string) (k : string) :
  ManagedIndexer.reachable keys l ks ->
  (exists a b, ManagedList.insert l a b = Ok (k, l')) \/
  ManagedList.insert_at_start l = Ok (k, l') \/
  ManagedList.insert_at_end l = Ok (k, l') ->
  In k l' /\
  ManagedList.before l' (Some k) = ManagedList.before l (Some k) /\
  ManagedList.after l' (Some k) = ManagedList.after l (Some k) /\
  (forall p, ManagedList.before l' (Some k) = Ok (Some p) ->
             ManagedList.after l' (Some p) = Ok (Some k)) /\
  (forall q, ManagedList.after l' (Some k) = Ok (Some q) ->
             ManagedList.before l' (Some q) = Ok (Some k)).
Proof.
  intros R H. destruct (reachable_invariant keys l ks R) as (S & _).
  assert (E : l' = ManagedList.add k l).
  { destruct H as [(a & b & H)|[H|H]].
    - now apply managed_insert_inv in H.
    - now apply managed_insert_at_start_adds in H.
    - now apply managed_insert_at_end_adds in H. }
  subst l'. destruct (add_neighbours l k S) as (I & B & A & P & Q).
  rewrite B, A. repeat split; auto.
Qed.

Lemma managed_insert_then_lookup_witness :
  In "a0V" ["a0"; "a0V"; "a1"] /\
  ManagedList.after ["a0"; "a0V"; "a1"] (Some "a0") = Ok (Some "a0V").
Proof.
  destruct (managed_insert_then_lookup ["a1"; "a0"] ["a0"; "a1"] [] ["a0"; "a0V"; "a1"] "a0V")
    as (I & _ & _ & P & _).
  - apply ManagedIndexer.reach_init.
  - left. exists (Some "a0"), (Some "a1"). reflexivity.
  - split; [exact I|]. apply P. reflexivity.
Defined.

(** ** The dict of keys and names *)

Section KeyNames.

Variable name_to_key : option string -> res (option string).

#[local] Abbreviation no_key := (FileNames.no_key name_to_key).

Lemma dict_get_set (d : list (string * string)) (key name k : string) :
  Files.dict_get (Files.dict_set d key name) k =
  if key =? k then Ok name else Files.dict_get d k.
Proof.
  induction d as [|[k' n'] d IH]; simpl.
  - reflexivity.
  - destruct (String.eqb_spec k' key) as [->|N]; simpl.
    + destruct (key =? k); reflexivity.
    + rewrite IH. destruct (String.eqb_spec k' k) as [->|N']; auto.
      destruct (String.eqb_spec key k); congruence.
Qed.

Lemma dict_set_keys (d : list (string * string)) (key name k : string) :
  In k (map fst (Files.dict_set d key name)) <-> k = key \/ In k (map fst d).
Proof.
  induction d as [|[k' n'] d IH]; simpl.
  - intuition.
  - destruct (String.eqb_spec k' key) as [->|N]; simpl; [intuition|].
    rewrite IH. intuition.
Qed.

Lemma dict_set_nodup (d : list (string * string)) (key name : string) :
  NoDup (map fst d) -> NoDup (map fst (Files.dict_set d key name)).
Proof.
  induction d as [|[k' n'] d IH]; simpl; intros H.
  - repeat constructor. auto.
  - inversion H as [|? ? N H']; subst.
    destruct (String.eqb_spec k' key) as [->|Nk]; simpl.
    + now constructor.
    + constructor; auto. rewrite dict_set_keys. intros [E|I]; auto.
Qed.

Lemma dict_get_keys (d : list (string * string)) (k : string) :
  In k (map fst d) <-> exists n, Files.dict_get d k = Ok n.
Proof.
  induction d as [|[k' n'] d IH]; simpl.
  - split; [tauto|intros [n H]; discriminate].
  - destruct (String.eqb_spec k' k) as [->|N].
    + split; eauto.
    + rewrite <- IH. intuition.
Qed.

Lemma dict_get_cases (d : list (string * string)) (k : string) :
  (exists n, Files.dict_get d k = Ok n) \/ Files.dict_get d k = Raise KeyError.
Proof.
  induction d as [|[k' n'] d IH]; simpl; auto.
  destruct (k' =? k); eauto.
Qed.

Lemma last_with_key_cons (m : string) (names : list string) (k n : string) :
  FileNames.last_with_key name_to_key (m :: names) k n <->
  FileNames.last_with_key name_to_key names k n \/
  (n = m /\ name_to_key (Some m) = Ok (Some k) /\ no_key names k).
Proof.
  unfold FileNames.last_with_key, FileNames.no_key. split.
  - intros (l1 & l2 & E & K & N). destruct l1 as [|x l1]; simpl in E.
    + injection E as -> ->. right. auto.
    + injection E as -> ->. left. eauto.
  - intros [(l1 & l2 & -> & K & N)|(-> & K & N)].
    + exists (m :: l1), l2. auto.
    + exists [], names. auto.
Qed.

Lemma key_names_loop_spec (names : list string) :
  forall retval d,
    Files.key_names_loop name_to_key names retval = Ok d ->
    (NoDup (map fst retval) -> NoDup (map fst d)) /\
    forall k n,
      Files.dict_get d k = Ok n <->
      FileNames.last_with_key name_to_key names k n \/
      (no_key names k /\ Files.dict_get retval k = Ok n).
Proof.
  induction names as [|m names IH]; intros retval d H; simpl in H.
  - injection H as <-. split; auto. intros k n. split; [|intros [(l1 & l2 & E & _)|[_ H]]; auto].
    + intros H. right. split; auto. intros m [].
    + now destruct l1.
  - destruct (name_to_key (Some m)) as [[km|]|e] eqn:Km; cbn [bind] in H; [| |discriminate].
    + destruct (IH _ _ H) as [Nd Sp]. split; [auto using dict_set_nodup|].
      intros k n. rewrite Sp, last_with_key_cons, dict_get_set.
      destruct (String.eqb_spec km k) as [->|Nk].
      * split.
        -- intros [L|[N [= <-]]]; auto.
        -- intros [[L|(-> & _ & N)]|[N _]]; auto.
           exfalso. apply (N m); [now left|auto].
      * split.
        -- intros [L|[N G]]; auto. right. split; auto.
           intros x [<-|Hx]; [congruence|auto].
        -- intros [[L|(-> & K & N)]|[N G]]; auto; [congruence|].
           right. split; auto. intros x Hx. apply N. now right.
    + destruct (IH _ _ H) as [Nd Sp]. split; auto.
      intros k n. rewrite Sp, last_with_key_cons. split.
      * intros [L|[N G]]; auto. right. split; auto.
        intros x [<-|Hx]; [congruence|auto].
      * intros [[L|(-> & K & N)]|[N G]]; auto; [congruence|].
        right. split; auto. intros x Hx. apply N. now right.
Qed.

Lemma has_key_dec (names : list string) (k : string) :
  (exists n, FileNames.last_with_key name_to_key names k n) \/ no_key names k.
Proof.
  induction names as [|m names IH].
  - right. intros m [].
  - destruct IH as [[n L]|N].
    + left. exists n. apply last_with_key_cons. auto.
    + destruct (name_to_key (Some m)) as [[km|]|e] eqn:Km.
      * destruct (string_dec km k) as [->|Nk].
        -- left. exists m. apply last_with_key_cons. auto.
        -- right. intros x [<-|Hx]; [congruence|auto].
      * right. intros x [<-|Hx]; [congruence|auto].
      * right. intros x [<-|Hx]; [congruence|auto].
Qed.

Lemma key_names_dict_spec (dir : list string) (d : list (string * string)) :
  Files._key_names dir name_to_key = Ok d ->
  NoDup (map fst d) /\
  (forall k n, Files.dict_get d k = Ok n <->
               FileNames.last_with_key name_to_key dir k n) /\
  (forall k, In k (map fst d) <->
             exists n, In n dir /\ name_to_key (Some n) = Ok (Some k)) /\
  (forall k, (forall n, In n dir -> name_to_key (Some n) <> Ok (Some k)) ->
             Files.dict_get d k = Raise KeyError).
Proof.
  intros H. destruct (key_names_loop_spec dir [] d H) as [Nd Sp].
  assert (G : forall k n, Files.dict_get d k = Ok n <->
                          FileNames.last_with_key name_to_key dir k n).
  { intros k n. rewrite Sp. split; auto. intros [L|[_ E]]; [auto|discriminate]. }
  assert (Has : forall k, (exists n, In n dir /\ name_to_key (Some n) = Ok (Some k)) ->
                          exists n, FileNames.last_with_key name_to_key dir k n).
  { intros k (n & I & K). destruct (has_key_dec dir k) as [L|N]; auto.
    exfalso. now apply (N n). }
  split; [apply Nd; constructor|]. split; [exact G|]. split.
  - intros k. rewrite dict_get_keys. split.
    + intros [n Hn]. apply G in Hn. destruct Hn as (l1 & l2 & -> & K & _).
      exists n. split; auto. apply in_elt.
    + intros E. destruct (Has k E) as [n L]. exists n. now apply G.
  - intros k N. destruct (dict_get_cases d k) as [[n Hn]|E]; auto.
    apply G in Hn. destruct Hn as (l1 & l2 & -> & K & _).
    exfalso. apply (N n); auto. apply in_elt.
Qed.

(** X7.  [_key_names] is a dict that maps each key of a directory entry to
    the last entry, in the order of [iterdir], that has this key, and holds
    nothing else: an entry without key is left out, no key occurs twice, and
    a key that no entry has is not in the dict, so that looking it up raises
    [KeyError]. *)
Theorem key_names_dict (dir : list string) (d : list (string * string)) :
  Files._key_names dir name_to_key = Ok d ->
  NoDup (map fst d) /\
  (forall k n, Files.dict_get d k = Ok n <->
               FileNames.last_with_key name_to_key dir k n) /\
  (forall k, In k (map fst d) <->
             exists n, In n dir /\ name_to_key (Some n) = Ok (Some k)) /\
  (forall k, (forall n, In n dir -> name_to_key (Some n) <> Ok (Some k)) ->
             Files.dict_get d k = Raise KeyError).
Proof. exact (key_names_dict_spec dir d). Qed.

End KeyNames.

Lemma key_names_dict_witness :
  NoDup (map fst [("a0", "a0--b"); ("a1", "a1--a")]) /\
  FileNames.last_with_key Files.get_key_from_name ["a0--a"; "README"; "a1--a"; "a0--b"]
    "a0" "a0--b".
Proof.
  destruct (key_names_dict Files.get_key_from_name
              ["a0--a"; "README"; "a1--a"; "a0--b"]
              [("a0", "a0--b"); ("a1", "a1--a")] eq_refl) as (N & G & _).
  split; [exact N|]. apply G. reflexivity.
Defined.

Section KeyRoundTrip.

Variable dir : list string.
Variable name_to_key : option string -> res (option string).

(** The mapping raises for no name. *)
Hypothesis mapping_total : forall n, exists k, name_to_key n = Ok k.

Lemma key_names_total : exists d, Files._key_names dir name_to_key = Ok d.
Proof. apply (key_names_loop_total name_to_key mapping_total dir []). Qed.

Lemma only_entry_is_last (k n : string) :
  In n dir -> name_to_key (Some n) = Ok (Some k) ->
  (forall m, In m dir -> name_to_key (Some m) = Ok (Some k) -> m = n) ->
  FileNames.last_with_key name_to_key dir k n.
Proof.
  intros I K U. destruct (has_key_dec name_to_key dir k) as [[n' L]|N].
  - assert (n' = n); [|now subst].
    destruct L as (l1 & l2 & E & K' & _). apply U; auto.
    rewrite E. apply in_elt.
  - exfalso. now apply (N n).
Qed.

(** X8.  [_k_to_n] takes [None] to [None], a key to the last directory entry
    that has this key, and raises [KeyError] for a key that no entry has.
    Going from a name to its key and back with [_n_to_f_to_n] gives the name
    again for every entry that is the only one with its key, and [None] for a
    name without key. *)
Theorem k_to_n_round_trip :
  FileNames._k_to_n dir name_to_key None = Ok None /\
  (forall k n, FileNames.last_with_key name_to_key dir k n ->
     FileNames._k_to_n dir name_to_key (Some k) = Ok (Some n)) /\
  (forall k, FileNames.no_key name_to_key dir k ->
     FileNames._k_to_n dir name_to_key (Some k) = Raise KeyError) /\
  (forall k n,
     In n dir -> name_to_key (Some n) = Ok (Some k) ->
     (forall m, In m dir -> name_to_key (Some m) = Ok (Some k) -> m = n) ->
     FileNames._n_to_f_to_n dir name_to_key (fun x => name_to_key (Some x)) n
     = Ok (Some n)) /\
  (forall n, name_to_key (Some n) = Ok None ->
     FileNames._n_to_f_to_n dir name_to_key (fun x => name_to_key (Some x)) n
     = Ok None).
Proof.
  destruct key_names_total as [d D].
  destruct (key_names_dict_spec name_to_key dir d D) as (_ & G & _ & E).
  assert (R : forall k n, FileNames.last_with_key name_to_key dir k n ->
     FileNames._k_to_n dir name_to_key (Some k) = Ok (Some n)).
  { intros k n L. simpl. rewrite D. cbn [bind]. apply G in L. now rewrite L. }
  split; [reflexivity|]. split; [exact R|]. split; [|split].
  - intros k N. simpl. rewrite D. cbn [bind]. now rewrite (E k N).
  - intros k n I K U. unfold FileNames._n_to_f_to_n. rewrite K. cbn [bind].
    now apply R, only_entry_is_last.
  - intros n K. unfold FileNames._n_to_f_to_n. now rewrite K.
Qed.

End KeyRoundTrip.

Lemma get_key_from_name_total (n : option string) :
  exists k, Files.get_key_from_name n = Ok k.
Proof. destruct n; simpl; eauto. Qed.

Lemma k_to_n_round_trip_witness :
  FileNames._n_to_f_to_n ["a0--a"; "README"; "a1--a"] Files.get_key_from_name
    (fun x => Files.get_key_from_name (Some x)) "a1--a" = Ok (Some "a1--a").
Proof.
  destruct (k_to_n_round_trip ["a0--a"; "README"; "a1--a"] Files.get_key_from_name
              get_key_from_name_total) as (_ & _ & _ & T & _).
  apply (T "a1").
  - simpl. auto.
  - reflexivity.
  - intros m [<-|[<-|[<-|[]]]]; try discriminate; reflexivity.
Defined.

(** ** The read operations of the file accessor *)

Lemma sorted_nodup_strict (l : list string) :
  StronglySorted str_le l -> NoDup l -> StronglySorted str_lt l.
Proof.
  induction 1 as [|x l S IH F]; intros N; constructor;
    inversion N as [|? ? Nx N']; subst; auto.
  rewrite Forall_forall in *. intros y Hy.
  destruct (F y Hy) as [L|<-]; [auto|contradiction].
Qed.

Section FileReads.

Variable dir : list string.
Variable name_to_key : option string -> res (option string).

(** The mapping raises for no name. *)
Hypothesis mapping_total : forall n, exists k, name_to_key n = Ok k.

(** The keys of the directory, as [_keys] gives them: every key of an entry,
    once, in strictly increasing order. *)
Lemma file_keys :
  exists ks,
    Files._keys dir name_to_key = Ok ks /\
    StronglySorted str_lt ks /\
    (forall k, In k ks <-> exists n, In n dir /\ name_to_key (Some n) = Ok (Some k)).
Proof.
  destruct (key_names_total dir name_to_key mapping_total) as [d D].
  destruct (key_names_dict_spec name_to_key dir d D) as (N & _ & K & _).
  pose proof (ManagedListFacts.ManagedListAccessor_perm (map fst d)) as P.
  exists (ManagedList.ManagedListAccessor (map fst d)).
  unfold Files._keys. rewrite D. split; [reflexivity|]. split.
  - apply sorted_nodup_strict; [apply ManagedListFacts.ManagedListAccessor_sorted|].
    eapply Permutation_NoDup; eauto.
  - intros k. rewrite <- K. split; apply Permutation_in; auto using Permutation_sym.
Qed.

Lemma name_of_name_for (ks : list string) (out_k : option string) :
  Files._keys dir name_to_key = Ok ks ->
  (forall k, out_k = Some k -> In k ks) ->
  exists r, Files.name_of dir name_to_key out_k = Ok r /\
            FileNames.name_for name_to_key dir out_k r.
Proof.
  intros Ks I.
  destruct (key_names_total dir name_to_key mapping_total) as [d D].
  destruct (key_names_dict_spec name_to_key dir d D) as (_ & G & K & _).
  destruct out_k as [k|]; [|exists None; split; reflexivity].
  simpl. rewrite D. cbn [bind].
  assert (Ik : In k (map fst d)).
  { unfold Files._keys in Ks. rewrite D in Ks. cbn [bind] in Ks. injection Ks as <-.
    eapply Permutation_in; [|apply (I k eq_refl)].
    apply Permutation_sym, ManagedListFacts.ManagedListAccessor_perm. }
  apply dict_get_keys in Ik. destruct Ik as [n Hn]. rewrite Hn. cbn [bind].
  exists (Some n). split; auto. simpl. now apply G.
Qed.

Lemma file_reads_spec :
  exists ks,
    Files._keys dir name_to_key = Ok ks /\
    StronglySorted str_lt ks /\
    (forall k, In k ks <-> exists n, In n dir /\ name_to_key (Some n) = Ok (Some k)) /\
    (exists r kr, Files.first dir name_to_key = Ok r /\
                  smallest_of ks kr /\ FileNames.name_for name_to_key dir kr r) /\
    (exists r kr, Files.last dir name_to_key = Ok r /\
                  largest_of ks kr /\ FileNames.name_for name_to_key dir kr r) /\
    (forall name k, name_to_key (Some name) = Ok (Some k) ->
       (exists r kr, Files.before dir name_to_key name = Ok r /\
                     greatest_below ks k kr /\ FileNames.name_for name_to_key dir kr r) /\
       (exists r kr, Files.after dir name_to_key name = Ok r /\
                     least_above ks k kr /\ FileNames.name_for name_to_key dir kr r)).
Proof.
  destruct file_keys as (ks & Ks & S & K).
  pose proof (ManagedListFacts.strictly_sorted_le ks S) as Sle.
  exists ks. split; [exact Ks|]. split; [exact S|]. split; [exact K|].
  unfold Files.first, Files.last, Files.before, Files.after. rewrite Ks. cbn [bind].
  split; [|split; [|intros name k Kn; rewrite Kn; cbn [bind]; split]].
  - destruct (ManagedListFacts.first_spec ks Sle) as (kr & E & G). rewrite E. cbn [bind].
    destruct (name_of_name_for ks kr Ks) as (r & -> & N); [|eauto].
    intros k ->. now apply (proj1 (managed_reads_in ks None k)).
  - destruct (ManagedListFacts.last_spec ks Sle) as (kr & E & G). rewrite E. cbn [bind].
    destruct (name_of_name_for ks kr Ks) as (r & -> & N); [|eauto].
    intros k ->. now apply (proj1 (proj2 (managed_reads_in ks None k))).
  - destruct (ManagedListFacts.before_spec ks k Sle) as (kr & E & G). rewrite E. cbn [bind].
    destruct (name_of_name_for ks kr Ks) as (r & -> & N); [|eauto].
    intros k' ->. now apply (proj1 (proj2 (proj2 (managed_reads_in ks (Some k) k')))).
  - destruct (ManagedListFacts.after_spec ks k Sle) as (kr & E & G). rewrite E. cbn [bind].
    destruct (name_of_name_for ks kr Ks) as (r & -> & N); [|eauto].
    intros k' ->. now apply (proj2 (proj2 (proj2 (managed_reads_in ks (Some k) k')))).
Qed.

(** X9.  The read operations of [FileAccessor] answer by the keys: [first()]
    is the entry with the smallest key and [last()] the one with the largest,
    absent when no entry has a key; for a name that has a key, [before(name)]
    is the entry whose key is the greatest key of the directory strictly
    below the key of the name, and [after(name)] the entry whose key is the
    least one strictly above it, absent when there is no such key.  The name
    need not be an entry of the directory, and an entry without key is never
    the answer. *)
Theorem file_accessor_reads :
  exists ks,
    Files._keys dir name_to_key = Ok ks /\
    StronglySorted str_lt ks /\
    (forall k, In k ks <-> exists n, In n dir /\ name_to_key (Some n) = Ok (Some k)) /\
    (exists r kr, Files.first dir name_to_key = Ok r /\
                  smallest_of ks kr /\ FileNames.name_for name_to_key dir kr r) /\
    (exists r kr, Files.last dir name_to_key = Ok r /\
                  largest_of ks kr /\ FileNames.name_for name_to_key dir kr r) /\
    (forall name k, name_to_key (Some name) = Ok (Some k) ->
       (exists r kr, Files.before dir name_to_key name = Ok r /\
                     greatest_below ks k kr /\ FileNames.name_for name_to_key dir kr r) /\
       (exists r kr, Files.after dir name_to_key name = Ok r /\
                     least_above ks k kr /\ FileNames.name_for name_to_key dir kr r)).
Proof. exact file_reads_spec. Qed.

(** X10.  For a name that [name_to_key] maps to no key, [before(name)] and
    [after(name)] of [FileAccessor] answer absent when no entry of the
    directory has a key, and raise [TypeError] as soon as one entry has a
    key. *)
Theorem file_accessor_without_key (name : string) :
  name_to_key (Some name) = Ok None ->
  ((forall n, In n dir -> name_to_key (Some n) = Ok None) ->
   Files.before dir name_to_key name = Ok None /\
   Files.after dir name_to_key name = Ok None) /\
  ((exists n k, In n dir /\ name_to_key (Some n) = Ok (Some k)) ->
   Files.before dir name_to_key name = Raise TypeError /\
   Files.after dir name_to_key name = Raise TypeError).
Proof.
  intros Kn. destruct file_keys as (ks & Ks & S & K).
  unfold Files.before, Files.after. rewrite Kn, Ks. cbn [bind].
  split.
  - intros N. assert (ks = []) as ->; [|split; reflexivity].
    destruct ks as [|k ks]; auto. exfalso.
    destruct (proj1 (K k)) as (n & I & Kk); [now left|].
    rewrite (N n I) in Kk. discriminate.
  - intros (n & k & I & Kk).
    destruct ks as [|k0 ks]; [|split; reflexivity].
    exfalso. apply (proj2 (K k)). eauto.
Qed.

End FileReads.

Lemma file_accessor_reads_witness :
  exists ks,
    Files._keys ["a1--a"; "README"; "a0--a"] Files.get_key_from_name = Ok ks /\
    StronglySorted str_lt ks.
Proof.
  destruct (file_accessor_reads ["a1--a"; "README"; "a0--a"] Files.get_key_from_name
              get_key_from_name_total) as (ks & K & S & _).
  exists ks. split; [exact K|exact S].
Defined.

Lemma file_accessor_without_key_witness :
  Files.after ["a1--a"; "README"; "a0--a"] Files.get_key_from_name "notes"
  = Raise TypeError.
Proof.
  destruct (file_accessor_without_key ["a1--a"; "README"; "a0--a"]
              Files.get_key_from_name get_key_from_name_total "notes" eq_refl)
    as (_ & T).
  apply T. exists "a1--a", "a1". split; [simpl; auto|reflexivity].
Defined.

(** ** The file Indexer *)

Lemma forall2_nodup {A B : Type} (R : A -> B -> Prop) (xs : list A) (ys : list B) :
  (forall x x' y, R x y -> R x' y -> x = x') ->
  Forall2 R xs ys -> NoDup xs -> NoDup ys.
Proof.
  intros Inj F. induction F as [|x y xs ys Rxy F IH]; intros N; constructor;
    inversion N as [|? ? Nx N']; subst; auto.
  intros Hy. apply Nx. clear IH N N' Nx.
  induction F as [|x' y' xs ys Rxy' F IH]; simpl in *; [tauto|].
  destruct Hy as [->|Hy]; [left; eauto|right; auto].
Qed.

Section FileIndexerFacts.

Variable dir : list string.
Variable name_to_key : option string -> res (option string).

(** The mapping raises for no name. *)
Hypothesis mapping_total : forall n, exists k, name_to_key n = Ok k.

Lemma names_of_keys (d : list (string * string)) (l : list string) :
  (forall k, In k l -> In k (map fst d)) ->
  exists ys, Forall2 (fun k n => Files.dict_get d k = Ok n) l ys.
Proof.
  induction l as [|k l IH]; intros I.
  - exists []. constructor.
  - destruct IH as [ys F]; [intros; apply I; now right|].
    destruct (proj1 (dict_get_keys d k)) as [n Hn]; [apply I; now left|].
    exists (n :: ys). now constructor.
Qed.

Lemma name_of_hd (d : list (string * string)) (ks ys : list string) :
  Files._key_names dir name_to_key = Ok d ->
  Forall2 (fun k n => Files.dict_get d k = Ok n) ks ys ->
  Files.name_of dir name_to_key (hd_error ks) = Ok (hd_error ys).
Proof.
  intros D F. destruct F as [|k n ks ys H F]; simpl; auto.
  rewrite D. cbn [bind]. now rewrite H.
Qed.

(** X11.  Iterating a [FileIndexer] stops and yields, in strictly increasing
    order of the keys, one entry for each key that an entry of the directory
    has: the last entry with that key.  An entry without key is not
    yielded. *)
Theorem file_iteration :
  exists ks ys,
    Files._keys dir name_to_key = Ok ks /\
    StronglySorted str_lt ks /\
    (forall k, In k ks <-> exists n, In n dir /\ name_to_key (Some n) = Ok (Some k)) /\
    FileIndexer.iter dir name_to_key (List.length dir) = (ys, Indexer.Stop) /\
    Forall2 (FileNames.last_with_key name_to_key dir) ks ys.
Proof.
  destruct (file_keys dir name_to_key mapping_total) as (ks & Ks & S & K).
  destruct (key_names_total dir name_to_key mapping_total) as [d D].
  destruct (key_names_dict_spec name_to_key dir d D) as (_ & G & Kd & _).
  destruct (names_of_keys d ks) as [ys F].
  { intros k Hk. apply Kd, K, Hk. }
  assert (C : lists_collection (Files.FileAccessor dir name_to_key) ys).
  { split.
    - simpl. unfold Files.first. rewrite Ks. cbn [bind].
      rewrite first_hd. cbn [bind]. now apply (name_of_hd d).
    - intros l1 x l2 E. simpl. subst ys.
      apply Forall2_app_inv_r in F. destruct F as (k1 & ks2 & F1 & F2 & ->).
      inversion F2 as [|kx ? k2 ? Hx F3]; subst.
      assert (Kx : name_to_key (Some x) = Ok (Some kx)).
      { apply G in Hx. destruct Hx as (? & ? & _ & Kx & _). exact Kx. }
      unfold Files.after. rewrite Kx, Ks. cbn [bind].
      pose proof (proj2 (managed_list_collection _ S) k1 kx k2 eq_refl) as A.
      simpl in A. rewrite A. cbn [bind]. now apply (name_of_hd d). }
  assert (L : Forall2 (FileNames.last_with_key name_to_key dir) ks ys).
  { eapply Forall2_impl; [|exact F]. intros k n H. now apply G. }
  exists ks, ys. repeat split; auto; try apply K.
  unfold FileIndexer.iter, Indexer.iter. rewrite (proj1 C).
  apply chain_iter_loop; [now apply (collection_chain _ ys C ys [])|].
  apply NoDup_incl_length.
  - apply (forall2_nodup _ ks ys) in L; auto.
    + intros k k' n (? & ? & _ & H1 & _) (? & ? & _ & H2 & _). congruence.
    + clear -S. induction S as [|y ys Sy IH Fy]; constructor; auto.
      rewrite Forall_forall in Fy. intros H. now apply Fy, str_lt_irrefl in H.
  - intros n Hn. clear -L Hn. induction L as [|k y ks ys H L IH]; [destruct Hn|].
    destruct Hn as [<-|Hn]; auto.
    destruct H as (l1 & l2 & -> & _). apply in_elt.
Qed.

(** X12.  With a mapping that sends an absent name to an absent key,
    [FileIndexer.insert] generates its key from the keys of the directory:
    [insert(after=name)] from the key of the name and the least key strictly
    above it, [insert(before=name)] from the greatest key strictly below the
    key of the name and that key, and [insert()] from the largest key and no
    upper bound; a bound is absent when the directory has no such key. *)
Theorem file_insert_bounds :
  name_to_key None = Ok None ->
  exists ks,
    Files._keys dir name_to_key = Ok ks /\
    (exists kr, largest_of ks kr /\
       FileIndexer.insert dir name_to_key None None
       = KeyGen.generate_key_between kr None) /\
    (forall name k, name_to_key (Some name) = Ok (Some k) ->
       (exists kr, least_above ks k kr /\
          FileIndexer.insert dir name_to_key (Some name) None
          = KeyGen.generate_key_between (Some k) kr) /\
       (exists kr, greatest_below ks k kr /\
          FileIndexer.insert dir name_to_key None (Some name)
          = KeyGen.generate_key_between kr (Some k))).
Proof.
  intros M.
  destruct (file_reads_spec dir name_to_key mapping_total)
    as (ks & Ks & S & K & _ & (rl & kl & El & Gl & Nl) & BA).
  assert (Key : forall kr r, FileNames.name_for name_to_key dir kr r ->
                             name_to_key r = Ok kr).
  { intros [k|] [n|]; simpl; try tauto.
    intros (? & ? & _ & H & _). exact H. }
  exists ks. split; [exact Ks|]. unfold FileIndexer.insert, Indexer.insert, Indexer.resolve.
  split.
  - exists kl. split; auto. simpl. rewrite El. cbn [bind].
    rewrite (Key _ _ Nl), M. reflexivity.
  - intros name k Kn.
    destruct (BA name k Kn) as ((rb & kb & Eb & Gb & Nb) & (ra & ka & Ea & Ga & Na)).
    split.
    + exists ka. split; auto. simpl. rewrite Ea. cbn [bind].
      rewrite Kn. cbn [bind]. now rewrite (Key _ _ Na).
    + exists kb. split; auto. simpl. rewrite Eb. cbn [bind].
      rewrite (Key _ _ Nb). cbn [bind]. now rewrite Kn.
Qed.

End FileIndexerFacts.

Lemma file_iteration_witness :
  exists ks ys,
    Files._keys ["a1--a"; "README"; "a0--a"] Files.get_key_from_name = Ok ks /\
    FileIndexer.iter ["a1--a"; "README"; "a0--a"] Files.get_key_from_name 3
    = (ys, Indexer.Stop).
Proof.
  destruct (file_iteration ["a1--a"; "README"; "a0--a"] Files.get_key_from_name
              get_key_from_name_total) as (ks & ys & K & _ & _ & I & _).
  exists ks, ys. split; [exact K|exact I].
Defined.

Lemma file_insert_bounds_witness :
  exists ks,
    Files._keys ["a1--a"; "README"; "a0--a"] Files.get_key_from_name = Ok ks /\
    exists kr, least_above ks "a0" kr /\
      FileIndexer.insert ["a1--a"; "README"; "a0--a"] Files.get_key_from_name
        (Some "a0--a") None
      = KeyGen.generate_key_between (Some "a0") kr.
Proof.
  destruct (file_insert_bounds ["a1--a"; "README"; "a0--a"] Files.get_key_from_name
              get_key_from_name_total eq_refl) as (ks & K & _ & T).
  exists ks. split; [exact K|].
  apply (T "a0--a" "a0"). reflexivity.
Defined.

(** ** The table accessor *)

Lemma sql_min_spec (vs : list string) : smallest_of vs (Sqlite.sql_min vs).
Proof.
  induction vs as [|v vs IH]; simpl; auto.
  destruct (Sqlite.sql_min vs) as [m|]; simpl in *.
  - destruct IH as [I Le]. destruct (v <? m) eqn:E.
    + apply ltb_lt in E. split; auto.
      intros k [<-|Hk]; [now right|]. left.
      eapply ManagedListFacts.str_lt_le_trans; eauto.
    + apply ManagedListFacts.ltb_false, ManagedListFacts.not_lt_le in E.
      split; auto. intros k [<-|Hk]; auto.
  - subst vs. split; auto. intros k [<-|[]]. now right.
Qed.

Lemma sql_max_spec (vs : list string) : largest_of vs (Sqlite.sql_max vs).
Proof.
  induction vs as [|v vs IH]; simpl; auto.
  destruct (Sqlite.sql_max vs) as [m|]; simpl in *.
  - destruct IH as [I Le]. destruct (m <? v) eqn:E.
    + apply ltb_lt in E. split; auto.
      intros k [<-|Hk]; [now right|]. left.
      eapply ManagedListFacts.str_le_lt_trans; eauto.
    + apply ManagedListFacts.ltb_false, ManagedListFacts.not_lt_le in E.
      split; auto. intros k [<-|Hk]; auto.
  - subst vs. split; auto. intros k [<-|[]]. now right.
Qed.

Lemma filter_selects (w : Sqlite.condition) (rows : list string) (k : string) :
  In k (filter (Sqlite.selects w) rows) <-> In k rows /\ Sqlite.selects w k = true.
Proof. apply filter_In. Qed.

Lemma sqlite_before_spec (rows : list string) (x : string) :
  exists r, Sqlite.before rows x = Ok r /\ greatest_below rows x r.
Proof.
  eexists. split; [reflexivity|].
  set (vs := filter (Sqlite.selects (Sqlite.col_lt x)) rows).
  assert (V : forall k, In k vs <-> In k rows /\ k <s x).
  { intros k. unfold vs. rewrite filter_selects. simpl. now rewrite ltb_lt. }
  pose proof (sql_max_spec vs) as H.
  destruct (Sqlite.sql_max vs) as [p|]; simpl in *.
  - destruct H as [I Le]. apply V in I. destruct I as [I L].
    repeat split; auto. intros k Hk Lk. apply Le, V. auto.
  - intros k Hk Lk. assert (I : In k vs) by (apply V; auto).
    rewrite H in I. destruct I.
Qed.

Lemma sqlite_after_spec (rows : list string) (x : string) :
  exists r, Sqlite.after rows x = Ok r /\ least_above rows x r.
Proof.
  eexists. split; [reflexivity|].
  set (vs := filter (Sqlite.selects (Sqlite.col_gt x)) rows).
  assert (V : forall k, In k vs <-> In k rows /\ x <s k).
  { intros k. unfold vs. rewrite filter_selects. simpl. now rewrite ltb_lt. }
  pose proof (sql_min_spec vs) as H.
  destruct (Sqlite.sql_min vs) as [p|]; simpl in *.
  - destruct H as [I Le]. apply V in I. destruct I as [I L].
    repeat split; auto. intros k Hk Lk. apply Le, V. auto.
  - intros k Hk Lk. assert (I : In k vs) by (apply V; auto).
    rewrite H in I. destruct I.
Qed.

Lemma filter_all (rows : list string) : filter (Sqlite.selects Sqlite.no_where) rows = rows.
Proof. induction rows; simpl; congruence. Qed.

Lemma sqlite_reads_spec (rows : list string) (item : string) :
  (exists r, Sqlite.first rows = Ok r /\ smallest_of rows r) /\
  (exists r, Sqlite.last rows = Ok r /\ largest_of rows r) /\
  (exists r, Sqlite.before rows item = Ok r /\ greatest_below rows item r) /\
  (exists r, Sqlite.after rows item = Ok r /\ least_above rows item r).
Proof.
  split; [|split; [|split]].
  - eexists. split; [reflexivity|]. rewrite filter_all. apply sql_min_spec.
  - eexists. split; [reflexivity|]. rewrite filter_all. apply sql_max_spec.
  - apply sqlite_before_spec.
  - apply sqlite_after_spec.
Qed.

Lemma sqlite_reads_agree (rows : list string) (item : string) :
  Sqlite.first rows = ManagedList.first (ManagedList.ManagedListAccessor rows) /\
  Sqlite.last rows = ManagedList.last (ManagedList.ManagedListAccessor rows) /\
  Sqlite.before rows item
    = ManagedList.before (ManagedList.ManagedListAccessor rows) (Some item) /\
  Sqlite.after rows item
    = ManagedList.after (ManagedList.ManagedListAccessor rows) (Some item).
Proof.
  set (l := ManagedList.ManagedListAccessor rows).
  pose proof (ManagedListFacts.ManagedListAccessor_sorted rows) as S. fold l in S.
  assert (E : forall k, In k rows <-> In k l).
  { intros k. split; apply Permutation_in;
      auto using Permutation_sym, ManagedListFacts.ManagedListAccessor_perm. }
  destruct (sqlite_reads_spec rows item)
    as ((rf & -> & Gf) & (rl & -> & Gl) & (rb & -> & Gb) & (ra & -> & Ga)).
  destruct (ManagedListFacts.first_spec l S) as (rf' & -> & Gf').
  destruct (ManagedListFacts.last_spec l S) as (rl' & -> & Gl').
  destruct (ManagedListFacts.before_spec l item S) as (rb' & -> & Gb').
  destruct (ManagedListFacts.after_spec l item S) as (ra' & -> & Ga').
  repeat split; f_equal.
  - eapply smallest_of_unique; eauto.
  - eapply largest_of_unique; eauto.
  - eapply greatest_below_unique; eauto.
  - eapply least_above_unique; eauto.
Qed.

(** X13.  The four queries of [SqliteAccessor] are rank queries on the values
    of the column, in whatever order and however often the rows hold them:
    [first()] is the smallest value and [last()] the largest, absent for a
    table without rows; [before(item)] is the greatest value strictly below
    the item and [after(item)] the least one strictly above it, absent when
    there is none, whether the item is in the table or not.  They answer as
    [ManagedListAccessor] does over the same values. *)
Theorem sqlite_accessor_reads (rows : list string) (item : string) :
  (exists r, Sqlite.first rows = Ok r /\ smallest_of rows r) /\
  (exists r, Sqlite.last rows = Ok r /\ largest_of rows r) /\
  (exists r, Sqlite.before rows item = Ok r /\ greatest_below rows item r) /\
  (exists r, Sqlite.after rows item = Ok r /\ least_above rows item r) /\
  Sqlite.first rows = ManagedList.first (ManagedList.ManagedListAccessor rows) /\
  Sqlite.last rows = ManagedList.last (ManagedList.ManagedListAccessor rows) /\
  Sqlite.before rows item
    = ManagedList.before (ManagedList.ManagedListAccessor rows) (Some item) /\
  Sqlite.after rows item
    = ManagedList.after (ManagedList.ManagedListAccessor rows) (Some item).
Proof.
  destruct (sqlite_reads_spec rows item) as (F & L & B & A).
  destruct (sqlite_reads_agree rows item) as (F' & L' & B' & A').
  repeat split; assumption.
Qed.

(** Two accessors that answer [first] and [after] alike are iterated alike,
    and two that answer all four reads alike give the same [insert]. *)
Lemma iter_ext {Name : Type} (items items' : Accessor Name) (fuel : nat) :
  first items = first items' ->
  (forall x, after items x = after items' x) ->
  Indexer.iter items fuel = Indexer.iter items' fuel.
Proof.
  intros F A. unfold Indexer.iter. rewrite F.
  destruct (first items') as [c|e]; auto. clear F.
  revert c. induction fuel as [|fuel IH]; intros [c|]; simpl; auto.
  rewrite A. destruct (after items' c); auto. now rewrite IH.
Qed.

Lemma insert_ext {Name : Type} (items items' : Accessor Name)
    (name_to_key : option Name -> res (option string)) (a b : option Name) :
  last items = last items' ->
  (forall x, before items x = before items' x) ->
  (forall x, after items x = after items' x) ->
  Indexer.insert items name_to_key a b = Indexer.insert items' name_to_key a b.
Proof.
  intros L B A. unfold Indexer.insert, Indexer.resolve.
  destruct a, b; rewrite ?L, ?B, ?A; reflexivity.
Qed.

(** X14.  An Indexer over [SqliteAccessor] behaves as one over
    [ManagedListAccessor] with the values of the column: [insert] returns
    the same key for the same arguments and mapping, and iterating stops and
    yields the values of the column in strictly increasing order, each value
    once. *)
Theorem sqlite_indexer_as_managed (rows : list string) :
  (forall (name_to_key : option string -> res (option string)) (a b : option string),
     Indexer.insert (Sqlite.SqliteAccessor rows) name_to_key a b =
     Indexer.insert (ManagedList.accessor (ManagedList.ManagedListAccessor rows))
       name_to_key a b) /\
  (forall name_to_key : option string -> res (option string),
     Indexer.insert_at_start (Sqlite.SqliteAccessor rows) name_to_key =
     Indexer.insert_at_start (ManagedList.accessor (ManagedList.ManagedListAccessor rows))
       name_to_key /\
     Indexer.insert_at_end (Sqlite.SqliteAccessor rows) name_to_key =
     Indexer.insert_at_end (ManagedList.accessor (ManagedList.ManagedListAccessor rows))
       name_to_key) /\
  (forall fuel,
     Indexer.iter (Sqlite.SqliteAccessor rows) fuel =
     Indexer.iter (ManagedList.accessor (ManagedList.ManagedListAccessor rows)) fuel) /\
  exists ys,
    Indexer.iter (Sqlite.SqliteAccessor rows) (List.length rows) = (ys, Indexer.Stop) /\
    StronglySorted str_lt ys /\
    (forall x, In x ys <-> In x rows).
Proof.
  set (l := ManagedList.ManagedListAccessor rows).
  assert (I : forall fuel,
     Indexer.iter (Sqlite.SqliteAccessor rows) fuel =
     Indexer.iter (ManagedList.accessor l) fuel).
  { intros fuel. apply iter_ext; simpl.
    - apply (sqlite_reads_agree rows "").
    - intros x. apply (sqlite_reads_agree rows x). }
  assert (J : forall (name_to_key : option string -> res (option string)) a b,
     Indexer.insert (Sqlite.SqliteAccessor rows) name_to_key a b =
     Indexer.insert (ManagedList.accessor l) name_to_key a b).
  { intros name_to_key a b. apply insert_ext; simpl.
    - apply (sqlite_reads_agree rows "").
    - intros x. apply (sqlite_reads_agree rows x).
    - intros x. apply (sqlite_reads_agree rows x). }
  split; [exact J|]. split; [|split; [exact I|]].
  - intros name_to_key. unfold Indexer.insert_at_start, Indexer.insert_at_end.
    change (first (Sqlite.SqliteAccessor rows)) with (Sqlite.first rows).
    change (last (Sqlite.SqliteAccessor rows)) with (Sqlite.last rows).
    change (first (ManagedList.accessor l)) with (ManagedList.first l).
    change (last (ManagedList.accessor l)) with (ManagedList.last l).
    destruct (sqlite_reads_agree rows "") as (F & L & _). fold l in F, L.
    rewrite F, L.
    split; [destruct (ManagedList.first l)|destruct (ManagedList.last l)];
      cbn [bind]; auto.
  - pose proof (ManagedListFacts.ManagedListAccessor_sorted rows) as S. fold l in S.
    pose proof (ManagedListFacts.ManagedListAccessor_perm rows) as P. fold l in P.
    destruct (sorted_iteration l S) as (ys & E & Sy & M).
    exists ys. rewrite I, (Permutation_length P). split; [exact E|]. split; [exact Sy|].
    intros x. rewrite M. split; apply Permutation_in; auto using Permutation_sym.
Qed.

(** [test_sqlite_indexer_with_names]: iterating yields
    [[i6name, i1name, i3name, i4name, i2name, i5name]]. *)
Example sqlite_names_scenario_run :
  Sqlite.names_scenario =
  Ok (["msg-a0"; "msg-a1"; "msg-a0V"; "msg-a0l"; "msg-a2"; "msg-Zz"],
      (["msg-Zz"; "msg-a0"; "msg-a0V"; "msg-a0l"; "msg-a1"; "msg-a2"], Indexer.Stop)).
Proof. vm_compute. reflexivity. Qed.

(** ** Naming a gap of the managed list *)

(** X15.  On a managed list Indexer, a gap between two stored neighbours can
    be named by either neighbour or by both: when [y] is [after(x)] for a
    stored [x], or [x] is [before(y)] for a stored [y], then
    [insert(after=x)], [insert(before=y)] and [insert(x, y)] are the same
    call, with the same key and the same list after it. *)
Theorem managed_gap_naming (keys l ks : list string) (x y : string) :
  ManagedIndexer.reachable keys l ks ->
  (In x l /\ ManagedList.after l (Some x) = Ok (Some y)) \/
  (In y l /\ ManagedList.before l (Some y) = Ok (Some x)) ->
  ManagedList.insert l (Some x) None = ManagedList.insert l (Some x) (Some y) /\
  ManagedList.insert l None (Some y) = ManagedList.insert l (Some x) (Some y).
Proof.
  intros R H. destruct (reachable_invariant keys l ks R) as (S & _).
  destruct (neighbours_inverse l x y S) as [AB BA].
  assert (A : ManagedList.after l (Some x) = Ok (Some y)) by (destruct H as [[? ?]|[? ?]]; auto).
  assert (B : ManagedList.before l (Some y) = Ok (Some x)) by (destruct H as [[? ?]|[? ?]]; auto).
  unfold ManagedList.insert, Indexer.insert, Indexer.resolve. simpl.
  rewrite A, B. split; reflexivity.
Qed.

Lemma managed_gap_naming_witness :
  ManagedList.insert ["a0"; "a0V"; "a1"] (Some "a0V") None
  = ManagedList.insert ["a0"; "a0V"; "a1"] (Some "a0V") (Some "a1").
Proof.
  apply (managed_gap_naming ["a1"; "a0"] ["a0"; "a0V"; "a1"] ["a0V"] "a0V" "a1").
  - apply (ManagedIndexer.reach_insert _ ["a0"; "a1"] _ [] (Some "a0") (Some "a1"));
      [apply ManagedIndexer.reach_init|reflexivity].
  - left. split; [simpl; auto|reflexivity].
Defined.
